(** * The cast slideshow pipeline of [web/apps/cast/src/services/render.ts]

    A shallow embedding of the module that turns an encrypted remote
    collection into a paced sequence of renderable image URLs:

    - [getEncryptedCollectionFiles]: the paged diff fetcher;
    - [decryptEnteFile]: the per-record decryptor;
    - [isFileEligible]: the eligibility predicate;
    - [renderableImageBlob], [createRenderableURL]: the materializer;
    - [imageURLGenerator]: the async generator that drives them.

    Two smaller files of the repository are embedded as well: the disk
    cache of the desktop app ([openLocalCache], [DiskCache]) and the
    [FaqItem] class of the billing questions widget.

    Everything the module awaits from outside (HTTP, the crypto worker, the
    MIME sniffer, the HEIC worker, the clock) is an explicit oracle whose
    answers are part of the input; an [await] that rejects is a [Thrown]
    completion. JavaScript numbers that occur here (timestamps, sizes,
    counters) are integers well inside the exact range of a double, and are
    modelled in [Z]. *)

From Stdlib Require Import ZArith List String Ascii Bool Lia.
Import ListNotations.

Local Open Scope string_scope.
Local Open Scope list_scope.
Local Open Scope Z_scope.

Set Implicit Arguments.

(** ** Completions: a value or a thrown error *)

(** The two kinds of error the generator tells apart: an [ApiError] (which
    carries an HTTP status code) and every other [Error]. *)
Inductive JsError : Type :=
| ApiError (httpStatusCode : Z) (message : string)
| Error (message : string).

(** [e instanceof ApiError && e.httpStatusCode == 401] *)
Definition isUnauthorized (e : JsError) : bool :=
  match e with
  | ApiError httpStatusCode _ => httpStatusCode =? 401
  | Error _ => false
  end.

Inductive result (A : Type) : Type :=
| Returned (a : A)
| Thrown (e : JsError).

Arguments Returned {A} a.
Arguments Thrown {A} e.

Definition bind {A B : Type} (c : result A) (k : A -> result B) : result B :=
  match c with
  | Returned a => k a
  | Thrown e => Thrown e
  end.

Notation "'await' x <- c ;; k" := (bind c (fun x => k))
  (at level 61, x name, c at next level, right associativity).
Notation "'await' ' p <- c ;; k" := (bind c (fun x => match x with p => k end))
  (at level 61, p pattern, c at next level, right associativity).

(** JavaScript truthiness of the optional values the module tests. *)
Definition truthyString (s : string) : bool := negb (s =? "")%string.
Definition truthyNumber (n : Z) : bool := negb (n =? 0).

Definition bytes : Type := list Byte.byte.

(** ** Data model *)

(** Modelled from the spec: the [FILE_TYPE] enumeration of
    [@/media/file-type] is not part of the sources at hand; the module only
    compares against [IMAGE] and [LIVE_PHOTO]. *)
Inductive FILE_TYPE : Type := IMAGE | VIDEO | LIVE_PHOTO | OTHERS.

Definition FILE_TYPE_eqb (a b : FILE_TYPE) : bool :=
  match a, b with
  | IMAGE, IMAGE | VIDEO, VIDEO | LIVE_PHOTO, LIVE_PHOTO | OTHERS, OTHERS => true
  | _, _ => false
  end.

(** [{ encryptedData, decryptionHeader }] *)
Record EncryptedMetadata : Type := {
  encryptedData : string;
  encryptedDataHeader : string
}.

(** An encrypted magic-metadata overlay: [{ version, count, data, header }]. *)
Record EncryptedMagicMetadata : Type := {
  emm_version : Z;
  emm_count : Z;
  emm_data : string;
  emm_header : string
}.

(** [{ decryptionHeader }] of the file and of its thumbnail. *)
Record FileAttributes : Type := { decryptionHeader : string }.

Record FileInfo : Type := { fileSize : Z }.

(** The properties that [decryptEnteFile] copies unchanged
    ([...restFileProps]). *)
Record RestFileProps : Type := {
  id : Z;
  file : FileAttributes;
  thumbnail : FileAttributes;
  info : FileInfo;
  updationTime : Z;
  isDeleted : bool
}.

Record EncryptedEnteFile : Type := {
  enc_rest : RestFileProps;
  encryptedKey : string;
  keyDecryptionNonce : string;
  enc_metadata : EncryptedMetadata;
  enc_magicMetadata : option EncryptedMagicMetadata;
  enc_pubMagicMetadata : option EncryptedMagicMetadata
}.

(** Decrypted core metadata. *)
Record Metadata : Type := {
  title : string;
  creationTime : Z;
  modificationTime : Z;
  fileType : FILE_TYPE
}.

(** Decrypted private overlay (its fields are not read by this module). *)
Record FileMagicMetadataProps : Type := { visibility : option Z }.

(** Decrypted public overlay. *)
Record FilePublicMagicMetadataProps : Type := {
  editedTime : option Z;
  editedName : option string;
  w : option Z;
  h : option Z
}.

(** [{ ...magicMetadata, data: <decrypted> }] *)
Record MagicMetadata (D : Type) : Type := {
  mm_version : Z;
  mm_count : Z;
  mm_header : string;
  mm_data : D
}.

Record EnteFile : Type := {
  rest : RestFileProps;
  key : string;
  metadata : Metadata;
  magicMetadata : option (MagicMetadata FileMagicMetadataProps);
  pubMagicMetadata : option (MagicMetadata FilePublicMagicMetadataProps)
}.

(** ** The crypto worker

    [decryptMetadata] is one untyped method in the source; it is used at
    three result types, one oracle per use. *)
Record CryptoWorker : Type := {
  decryptB64 : string -> string -> string -> result string;
  decryptMetadata : string -> string -> string -> result Metadata;
  decryptMagicMetadata : string -> string -> string -> result FileMagicMetadataProps;
  decryptPubMagicMetadata :
    string -> string -> string -> result FilePublicMagicMetadataProps;
  decryptFile : bytes -> bytes -> string -> result bytes;
  fromB64 : string -> result bytes
}.

(** ** 4.1 Collection diff fetcher *)

(** [resp.data]: [{ diff, hasMore }]. *)
Record DiffResponse : Type := {
  diff : list EncryptedEnteFile;
  hasMore : bool
}.

(** What one request carries: the [sinceTime] query parameter and the
    [X-Cast-Access-Token] header. *)
Record DiffRequest : Type := {
  req_sinceTime : Z;
  req_token : string
}.

(** The outcome of one invocation: the requests sent, in order, the cursor
    when the loop stopped, and the completion ([None]: the server script has
    no answer for the last request, so the [await] is still pending). *)
Record FetchRun : Type := {
  requests : list DiffRequest;
  cursor : Z;
  completion : option (result (list EncryptedEnteFile))
}.

Definition sent (rq : DiffRequest) (r : FetchRun) : FetchRun :=
  {| requests := rq :: requests r; cursor := cursor r; completion := completion r |}.

(** [diff.filter((file) => !file.isDeleted)] *)
Definition liveFiles (d : list EncryptedEnteFile) : list EncryptedEnteFile :=
  filter (fun f => negb (isDeleted (enc_rest f))) d.

(** [diff.reduce((max, file) => Math.max(max, file.updationTime), sinceTime)] *)
Definition maxUpdationTime (d : list EncryptedEnteFile) (sinceTime : Z) : Z :=
  fold_left (fun max f => Z.max max (updationTime (enc_rest f))) d sinceTime.

(** The [do ... while (resp.data.hasMore)] loop; [responses] are the answers
    of [HTTPService.get] to the successive requests. *)
Fixpoint fetchLoop (castToken : string) (responses : list (result DiffResponse))
    (files : list EncryptedEnteFile) (sinceTime : Z) : FetchRun :=
  let rq := {| req_sinceTime := sinceTime; req_token := castToken |} in
  match responses with
  | [] => {| requests := [rq]; cursor := sinceTime; completion := None |}
  | Thrown e :: _ =>
      {| requests := [rq]; cursor := sinceTime; completion := Some (Thrown e) |}
  | Returned resp :: later =>
      let files' := files ++ liveFiles (diff resp) in
      let sinceTime' := maxUpdationTime (diff resp) sinceTime in
      if hasMore resp
      then sent rq (fetchLoop castToken later files' sinceTime')
      else {| requests := [rq]; cursor := sinceTime';
              completion := Some (Returned files') |}
  end.

Definition getEncryptedCollectionFiles (responses : list (result DiffResponse))
    (castToken : string) : FetchRun :=
  fetchLoop castToken responses [] 0.

(** ** 4.2 File decryptor *)

(** [{ ...m, data: d }] *)
Definition withData {D : Type} (m : EncryptedMagicMetadata) (d : D) : MagicMetadata D :=
  {| mm_version := emm_version m; mm_count := emm_count m;
     mm_header := emm_header m; mm_data := d |}.

(** [if (m?.data) { x = { ...m, data: await decrypt(m.data, m.header, fileKey) } }];
    the variable stays [undefined] otherwise. *)
Definition decryptOverlay {D : Type} (decrypt : string -> string -> string -> result D)
    (m : option EncryptedMagicMetadata) (fileKey : string)
    : result (option (MagicMetadata D)) :=
  match m with
  | Some m =>
      if truthyString (emm_data m)
      then await d <- decrypt (emm_data m) (emm_header m) fileKey ;;
           Returned (Some (withData m d))
      else Returned None
  | None => Returned None
  end.

Definition setCreationTime (m : Metadata) (t : Z) : Metadata :=
  {| title := title m; creationTime := t;
     modificationTime := modificationTime m; fileType := fileType m |}.

Definition setTitle (m : Metadata) (s : string) : Metadata :=
  {| title := s; creationTime := creationTime m;
     modificationTime := modificationTime m; fileType := fileType m |}.

(** [if (file.pubMagicMetadata?.data.editedTime)
       file.metadata.creationTime = file.pubMagicMetadata.data.editedTime] *)
Definition applyEditedTime
    (pub : option (MagicMetadata FilePublicMagicMetadataProps)) (m : Metadata) : Metadata :=
  match pub with
  | Some p =>
      match editedTime (mm_data p) with
      | Some t => if truthyNumber t then setCreationTime m t else m
      | None => m
      end
  | None => m
  end.

(** [if (file.pubMagicMetadata?.data.editedName)
       file.metadata.title = file.pubMagicMetadata.data.editedName] *)
Definition applyEditedName
    (pub : option (MagicMetadata FilePublicMagicMetadataProps)) (m : Metadata) : Metadata :=
  match pub with
  | Some p =>
      match editedName (mm_data p) with
      | Some s => if truthyString s then setTitle m s else m
      | None => m
      end
  | None => m
  end.

Definition decryptEnteFile (getInstance : result CryptoWorker)
    (encryptedFile : EncryptedEnteFile) (collectionKey : string) : result EnteFile :=
  await worker <- getInstance ;;
  await fileKey <- decryptB64 worker (encryptedKey encryptedFile)
                     (keyDecryptionNonce encryptedFile) collectionKey ;;
  await fileMetadata <- decryptMetadata worker
                     (encryptedData (enc_metadata encryptedFile))
                     (encryptedDataHeader (enc_metadata encryptedFile)) fileKey ;;
  await fileMagicMetadata <- decryptOverlay (decryptMagicMetadata worker)
                     (enc_magicMetadata encryptedFile) fileKey ;;
  await filePubMagicMetadata <- decryptOverlay (decryptPubMagicMetadata worker)
                     (enc_pubMagicMetadata encryptedFile) fileKey ;;
  Returned
    {| rest := enc_rest encryptedFile;
       key := fileKey;
       metadata :=
         applyEditedName filePubMagicMetadata
           (applyEditedTime filePubMagicMetadata fileMetadata);
       magicMetadata := fileMagicMetadata;
       pubMagicMetadata := filePubMagicMetadata |}.

(** ** 4.3 Eligibility filter *)

(** The helpers imported from [@/next/file] and [@/media/formats], which are
    not part of the sources at hand, are parameters of the model. The
    extension is [undefined] for a name without one. *)
Record MediaFormats : Type := {
  nameAndExtension : string -> string * option string;
  isNonWebImageFileExtension : option string -> bool;
  isHEICExtension : option string -> bool
}.

Definition isImageOrLivePhoto (file : EnteFile) : bool :=
  let fileType := fileType (metadata file) in
  FILE_TYPE_eqb fileType IMAGE || FILE_TYPE_eqb fileType LIVE_PHOTO.

Definition isFileEligible (F : MediaFormats) (file : EnteFile) : bool :=
  if negb (isImageOrLivePhoto file) then false
  else if fileSize (info (rest file)) >? 100 * 1024 * 1024 then false
  else
    let '(_, extension) := nameAndExtension F (title (metadata file)) in
    if isNonWebImageFileExtension F extension
    then isHEICExtension F extension
    else true.

(** ** 4.4 Content materializer *)

(** A [Blob]: its bytes and its [type]. *)
Record Blob : Type := {
  blob_bytes : bytes;
  blob_type : string
}.

(** [new Blob([data])]: no type given. *)
Definition newBlob (data : bytes) : Blob := {| blob_bytes := data; blob_type := "" |}.

(** The [type] that [new Blob(parts, { type })] stores: the empty string when
    the given type holds a character outside U+0020..U+007E, the given type in
    ASCII lower case otherwise. *)
Definition isBlobTypeChar (c : ascii) : bool :=
  let n := nat_of_ascii c in (32 <=? n)%nat && (n <=? 126)%nat.

Definition asciiLowerCase (c : ascii) : ascii :=
  let n := nat_of_ascii c in
  if (65 <=? n)%nat && (n <=? 90)%nat then ascii_of_nat (n + 32) else c.

Fixpoint allBlobTypeChars (s : string) : bool :=
  match s with
  | EmptyString => true
  | String c s' => isBlobTypeChar c && allBlobTypeChars s'
  end.

Fixpoint lowerCased (s : string) : string :=
  match s with
  | EmptyString => EmptyString
  | String c s' => String (asciiLowerCase c) (lowerCased s')
  end.

Definition blobType (type : string) : string :=
  if allBlobTypeChars type then lowerCased type else "".

(** [new Blob([blob], { type })] *)
Definition newTypedBlob (blob : Blob) (type : string) : Blob :=
  {| blob_bytes := blob_bytes blob; blob_type := blobType type |}.

(** What the outside world answers while one item is processed. *)
Record Env : Type := {
  getInstance : result CryptoWorker;
  isChromecast : bool;
  getCastFileURL : Z -> string;
  getCastThumbnailURL : Z -> string;
  (** [HTTPService.get(url, null, { "X-Cast-Access-Token": castToken }, ...)],
      giving [resp.data] (possibly [undefined]) *)
  httpGet : string -> string -> result (option bytes);
  decodeLivePhoto : string -> Blob -> result (bytes * string);
  detectMediaMIMEType : string -> Blob -> result (option string);
  (** the HEIC worker's [heicToJPEG] *)
  heicConvert : Blob -> result Blob;
  (** the canvas round trip of [resize] *)
  canvasResize : Blob -> result Blob;
  createObjectURL : Blob -> string;
  (** [Date.now()] once the item is materialized, and again just before the
      [yield] *)
  nowAfterMaterialize : Z;
  nowAtYield : Z
}.

Definition heicToJPEG (env : Env) (heicBlob : Blob) : result Blob :=
  heicConvert env heicBlob.

Definition downloadFile (env : Env) (castToken : string) (file' : EnteFile)
    (shouldUseThumbnail : bool) : result Blob :=
  if negb (isImageOrLivePhoto file')
  then Thrown (Error "Can only cast images and live photos")
  else
    let url := if shouldUseThumbnail
               then getCastThumbnailURL env (id (rest file'))
               else getCastFileURL env (id (rest file')) in
    await data <- httpGet env url castToken ;;
    match data with
    | None => Thrown (Error "Failed to get")
    | Some data =>
        await cryptoWorker <- getInstance env ;;
        await header <- fromB64 cryptoWorker
            (if shouldUseThumbnail
             then decryptionHeader (thumbnail (rest file'))
             else decryptionHeader (file (rest file'))) ;;
        await decrypted <- decryptFile cryptoWorker data header (key file') ;;
        Returned (newBlob decrypted)
    end.

(** [mimeType == "image/heif" || mimeType == "image/heic"] *)
Definition isHEICMimeType (mimeType : string) : bool :=
  (mimeType =? "image/heif")%string || (mimeType =? "image/heic")%string.

(** [if (!shouldUseThumbnail && file.metadata.fileType == FILE_TYPE.LIVE_PHOTO)
       { ... fileName = imageFileName; blob = new Blob([imageData]) }]:
    the file name and the blob that the next steps work on. *)
Definition stillImage (env : Env) (file' : EnteFile) (shouldUseThumbnail : bool)
    (fileName : string) (blob : Blob) : result (string * Blob) :=
  if negb shouldUseThumbnail && FILE_TYPE_eqb (fileType (metadata file')) LIVE_PHOTO
  then await '(imageData, imageFileName) <- decodeLivePhoto env fileName blob ;;
       Returned (imageFileName, newBlob imageData)
  else Returned (fileName, blob).

Definition renderableImageBlob (F : MediaFormats) (env : Env) (castToken : string)
    (file' : EnteFile) : result Blob :=
  let fileName := title (metadata file') in
  let '(_, ext) := nameAndExtension F fileName in
  let shouldUseThumbnail := isChromecast env && isHEICExtension F ext in
  await blob <- downloadFile env castToken file' shouldUseThumbnail ;;
  await '(fileName, blob) <- stillImage env file' shouldUseThumbnail fileName blob ;;
  await mimeType <- detectMediaMIMEType env fileName blob ;;
  match mimeType with
  | None => Thrown (Error "Could not detect MIME type for file")
  | Some mimeType =>
      if negb (truthyString mimeType)
      then Thrown (Error "Could not detect MIME type for file")
      else
        await blob <- (if isHEICMimeType mimeType
                       then heicToJPEG env blob
                       else Returned blob) ;;
        Returned (newTypedBlob blob mimeType)
  end.

(** [!x] for an optional number. *)
Definition falsyDimension (x : option Z) : bool :=
  match x with
  | Some n => negb (truthyNumber n)
  | None => true
  end.

Definition needsResize (env : Env) (file' : EnteFile) : bool :=
  if negb (isChromecast env) then false
  else
    let w := match pubMagicMetadata file' with Some p => w (mm_data p) | None => None end in
    let h := match pubMagicMetadata file' with Some p => h (mm_data p) | None => None end in
    if falsyDimension w || falsyDimension h then true
    else
      match w, h with
      | Some w, Some h => (Z.max w h >? 1280) || (Z.min w h >? 720)
      | _, _ => true
      end.

Definition resize (env : Env) (blob : Blob) : result Blob := canvasResize env blob.

Definition createRenderableURL (F : MediaFormats) (env : Env) (castToken : string)
    (file' : EnteFile) : result string :=
  await imageBlob <- renderableImageBlob F env castToken file' ;;
  await resizedBlob <- (if needsResize env file'
                        then resize env imageBlob
                        else Returned imageBlob) ;;
  Returned (createObjectURL env resizedBlob).

(** ** 4.5 Playback scheduler: [imageURLGenerator] *)

Record CastData : Type := {
  collectionKey : string;
  castToken : string
}.

(** The steps of the generator, in order. *)
Inductive Event : Type :=
| EvSkipped (fileID : Z)          (* not eligible: [continue] *)
| EvMaterialized (url : string)   (* [createRenderableURL] resolved *)
| EvFailed (e : JsError)          (* [createRenderableURL] rejected; caught *)
| EvRevoked (url : string)        (* [URL.revokeObjectURL] *)
| EvWaited (ms : Z)               (* [await wait(ms)] *)
| EvYielded (url : string).       (* [yield url] *)

(** The generator's local variables, with the events so far. *)
Record GenState : Type := {
  previousURLs : list string;
  lastYieldTime : Z;
  consecutiveFailures : Z;
  trace : list Event
}.

Definition slideDuration : Z := 12000.

(** [lastYieldTime = Date.now(); lastYieldTime -= slideDuration - 2500] *)
Definition initialState (now : Z) : GenState :=
  {| previousURLs := [];
     lastYieldTime := now - (slideDuration - 2500);
     consecutiveFailures := 0;
     trace := [] |}.

(** [if (previousURLs.length > 1) URL.revokeObjectURL(previousURLs.shift())]:
    the events and the queue left. *)
Definition revokeOldest (previousURLs : list string) : list Event * list string :=
  if (1 <? List.length previousURLs)%nat
  then match previousURLs with
       | oldest :: others => ([EvRevoked oldest], others)
       | [] => ([], [])
       end
  else ([], previousURLs).

(** [if (elapsedTime > 0 && elapsedTime < slideDuration)
       await wait(slideDuration - elapsedTime)]: the time waited, if any. *)
Definition pacingWait (lastYieldTime now : Z) : option Z :=
  let elapsedTime := now - lastYieldTime in
  if (elapsedTime >? 0) && (elapsedTime <? slideDuration)
  then Some (slideDuration - elapsedTime)
  else None.

Definition waitEvents (wait : option Z) : list Event :=
  match wait with
  | Some ms => [EvWaited ms]
  | None => []
  end.

(** How one iteration of the [for] loop ends: it goes on to the next item
    with the new state and [haveEligibleFiles], or an error leaves the
    generator. *)
Inductive Iteration : Type :=
| Next (st : GenState) (haveEligibleFiles : bool)
| Raise (e : JsError) (st : GenState).

(** The [try] branch after [createRenderableURL] resolved, up to the [yield]. *)
Definition vend (env : Env) (st : GenState) (url : string) : GenState :=
  let revoked := revokeOldest (previousURLs st) in
  {| previousURLs := snd revoked ++ [url];
     lastYieldTime := nowAtYield env;
     consecutiveFailures := 0;
     trace := trace st ++ [EvMaterialized url] ++ fst revoked
                ++ waitEvents (pacingWait (lastYieldTime st) (nowAfterMaterialize env))
                ++ [EvYielded url] |}.

(** The [catch] branch up to the tests: the counter is incremented. *)
Definition caught (st : GenState) (e : JsError) : GenState :=
  {| previousURLs := previousURLs st;
     lastYieldTime := lastYieldTime st;
     consecutiveFailures := consecutiveFailures st + 1;
     trace := trace st ++ [EvFailed e] |}.

Definition skipped (st : GenState) (fileID : Z) : GenState :=
  {| previousURLs := previousURLs st;
     lastYieldTime := lastYieldTime st;
     consecutiveFailures := consecutiveFailures st;
     trace := trace st ++ [EvSkipped fileID] |}.

(** What the awaited calls of one iteration come to: [decryptEnteFile]
    rejects; the file is not eligible; [createRenderableURL] resolves, or
    rejects. *)
Inductive Attempt : Type :=
| DecryptFailed (e : JsError)
| Ineligible (fileID : Z)
| Materialized (url : string)
| MaterializeFailed (e : JsError).

Definition attempt (F : MediaFormats) (castData : CastData) (env : Env)
    (encryptedFile : EncryptedEnteFile) : Attempt :=
  match decryptEnteFile (getInstance env) encryptedFile (collectionKey castData) with
  | Thrown e => DecryptFailed e
  | Returned file' =>
      if negb (isFileEligible F file') then Ineligible (id (rest file'))
      else
        match createRenderableURL F env (castToken castData) file' with
        | Returned url => Materialized url
        | Thrown e => MaterializeFailed e
        end
  end.

(** The body of [for (const encryptedFile of encryptedFiles)]: the call to
    [decryptEnteFile] and the eligibility test stand before the [try]; the
    [try] holds the call to [createRenderableURL] and the two assignments,
    the [catch] the counting and the two rethrows. *)
Definition loopBody (F : MediaFormats) (castData : CastData) (env : Env)
    (st : GenState) (haveEligibleFiles : bool) (encryptedFile : EncryptedEnteFile)
    : Iteration :=
  match attempt F castData env encryptedFile with
  | DecryptFailed e => Raise e st
  | Ineligible fileID => Next (skipped st fileID) haveEligibleFiles
  | Materialized url => Next (vend env st url) true
  | MaterializeFailed e =>
      let st' := caught st e in
      if consecutiveFailures st' =? 3 then Raise e st'
      else if isUnauthorized e then Raise e st'
      else Next st' haveEligibleFiles
  end.

(** The [for] loop; the [i]-th iteration of the pass runs in [envOf i]. *)
Fixpoint forLoop (F : MediaFormats) (castData : CastData) (envOf : nat -> Env)
    (i : nat) (st : GenState) (haveEligibleFiles : bool)
    (encryptedFiles : list EncryptedEnteFile) : Iteration :=
  match encryptedFiles with
  | [] => Next st haveEligibleFiles
  | encryptedFile :: others =>
      match loopBody F castData (envOf i) st haveEligibleFiles encryptedFile with
      | Next st' have' => forLoop F castData envOf (S i) st' have' others
      | Raise e st' => Raise e st'
      end
  end.

(** What the outside world answers during one outer pass: the diff pages,
    the order [shuffled] picks, and the answers for each iteration. *)
Record PassEnv : Type := {
  responses : list (result DiffResponse);
  shuffled : list EncryptedEnteFile -> list EncryptedEnteFile;
  envOf : nat -> Env
}.

(** The input of a run: the first [Date.now()] and the passes that the
    outside world has answers for. *)
Record World : Type := {
  startTime : Z;
  passes : list PassEnv
}.

(** How a run stands once the world's answers are used up: the generator
    returned ([Done]), an error left it ([Threw]), or it is suspended on an
    [await] that has no answer yet. *)
Inductive Outcome : Type :=
| Done
| Threw (e : JsError)
| Suspended.

Inductive PassEnd : Type :=
| Completed
| Aborted (e : JsError)
| Pending.

(** One outer pass as it was run: the URLs it yielded and how it ended. *)
Record PassLog : Type := {
  yielded : list string;
  passEnd : PassEnd
}.

Record Run : Type := {
  outcome : Outcome;
  final : GenState;
  passLog : list PassLog
}.

Definition yieldsOf (tr : list Event) : list string :=
  flat_map (fun ev => match ev with EvYielded url => [url] | _ => [] end) tr.

Definition revokesOf (tr : list Event) : list string :=
  flat_map (fun ev => match ev with EvRevoked url => [url] | _ => [] end) tr.

(** The URLs yielded between two states of one run. *)
Definition yieldedBetween (st st' : GenState) : list string :=
  skipn (List.length (yieldsOf (trace st))) (yieldsOf (trace st')).

Definition logged (l : PassLog) (r : Run) : Run :=
  {| outcome := outcome r; final := final r; passLog := l :: passLog r |}.

(** The [while (true)] loop. *)
Fixpoint outerLoop (F : MediaFormats) (castData : CastData) (ps : list PassEnv)
    (st : GenState) : Run :=
  match ps with
  | [] => {| outcome := Suspended; final := st; passLog := [] |}
  | p :: later =>
      match completion (getEncryptedCollectionFiles (responses p) (castToken castData)) with
      | None =>
          {| outcome := Suspended; final := st;
             passLog := [{| yielded := []; passEnd := Pending |}] |}
      | Some (Thrown e) =>
          {| outcome := Threw e; final := st;
             passLog := [{| yielded := []; passEnd := Aborted e |}] |}
      | Some (Returned files) =>
          let encryptedFiles := shuffled p files in
          match forLoop F castData (envOf p) 0 st false encryptedFiles with
          | Raise e st' =>
              {| outcome := Threw e; final := st';
                 passLog := [{| yielded := yieldedBetween st st'; passEnd := Aborted e |}] |}
          | Next st' haveEligibleFiles =>
              let l := {| yielded := yieldedBetween st st'; passEnd := Completed |} in
              if negb haveEligibleFiles
              then {| outcome := Done; final := st'; passLog := [l] |}
              else logged l (outerLoop F castData later st')
          end
      end
  end.

Definition imageURLGenerator (F : MediaFormats) (world : World) (castData : CastData)
    : Run :=
  outerLoop F castData (passes world) (initialState (startTime world)).

(** ** [heicToJPEG] and its cached worker *)

(** The module variable [heicWorker], with the number of workers created
    so far. *)
Record HeicModule (W : Type) : Type := {
  heicWorker : option W;
  workersCreated : nat
}.

(** [heicToJPEG] with the cache written out: [create n] is the worker that
    the [n]-th call of [createHEICConvertComlinkWorker] makes, [remote] what
    a worker's [heicToJPEG] answers. The module variable is set before the
    worker is awaited, so it stays set when the conversion fails. *)
Definition heicToJPEGCached {W : Type} (create : nat -> W)
    (remote : W -> Blob -> result Blob) (m : HeicModule W) (heicBlob : Blob)
    : HeicModule W * result Blob :=
  match heicWorker m with
  | Some worker => (m, remote worker heicBlob)
  | None =>
      let worker := create (workersCreated m) in
      ({| heicWorker := Some worker; workersCreated := S (workersCreated m) |},
       remote worker heicBlob)
  end.

(** One call after the other. *)
Fixpoint heicToJPEGEach {W : Type} (create : nat -> W)
    (remote : W -> Blob -> result Blob) (m : HeicModule W) (heicBlobs : list Blob)
    : HeicModule W * list (result Blob) :=
  match heicBlobs with
  | [] => (m, [])
  | heicBlob :: others =>
      let '(m', r) := heicToJPEGCached create remote m heicBlob in
      let '(m'', rs) := heicToJPEGEach create remote m' others in
      (m'', r :: rs)
  end.

(** ** The disk cache of the desktop app ([openLocalCache], [DiskCache])

    Node's file system is modelled as the files and the directories that
    exist, without permissions or limits of space: a path below a regular
    file cannot be made or written, a write needs the directory of its path
    to exist and refuses a path that is a directory, a read needs a file.
    [join] and [dirname] stand for [path.join] and for the directory of a
    path. *)

Record FileSystem : Type := {
  fileAt : string -> option bytes;
  isDirectory : string -> bool
}.

Record Paths : Type := {
  join : string -> string -> string;
  dirname : string -> string
}.

Definition isFile (fs : FileSystem) (path : string) : bool :=
  match fileAt fs path with
  | Some _ => true
  | None => false
  end.

Definition existsSync (fs : FileSystem) (path : string) : bool :=
  match fileAt fs path with
  | Some _ => true
  | None => isDirectory fs path
  end.

(** The directories above [path], nearest first: [dirname] is taken again
    and again until it gives back the path it was given (the root). *)
Fixpoint ancestorsWithin (P : Paths) (steps : nat) (path : string) : list string :=
  match steps with
  | O => []
  | S steps' =>
      let parent := dirname P path in
      if (parent =? path)%string then []
      else parent :: ancestorsWithin P steps' parent
  end.

Definition ancestors (P : Paths) (path : string) : list string :=
  ancestorsWithin P (S (String.length path)) path.


Definition writeFile (P : Paths) (fs : FileSystem) (path : string) (data : bytes)
    : result FileSystem :=
  if isDirectory fs path then Thrown (Error "EISDIR")
  else if negb (isDirectory fs (dirname P path))
  then Thrown (Error (if existsb (isFile fs) (ancestors P path)
                      then "ENOTDIR" else "ENOENT"))
  else Returned {| fileAt := fun p => if (p =? path)%string then Some data else fileAt fs p;
                   isDirectory := isDirectory fs |}.

Definition readFile (fs : FileSystem) (path : string) : result bytes :=
  match fileAt fs path with
  | Some data => Returned data
  | None => if isDirectory fs path then Thrown (Error "EISDIR") else Thrown (Error "ENOENT")
  end.




(** [DiskCache.put]; [response] is the body of the response. *)
Definition put (P : Paths) (cacheBucketDir : string) (fs : FileSystem)
    (cacheKey : string) (response : bytes) : result FileSystem :=
  let cachePath := join P cacheBucketDir cacheKey in
  writeFile P fs cachePath response.

(** [DiskCache.match]: the body of the response, or [undefined]. *)
Definition cacheMatch (P : Paths) (cacheBucketDir : string) (fs : FileSystem)
    (cacheKey : string) : result (option bytes) :=
  let cachePath := join P cacheBucketDir cacheKey in
  if existsSync fs cachePath
  then await data <- readFile fs cachePath ;; Returned (Some data)
  else Returned None.

(** ** [FaqItem] of the billing questions widget (Dart) *)

(** A value of type [dynamic] as a decoded JSON map holds it. *)
Inductive Dynamic : Type :=
| DNull
| DString (s : string)
| DNumber (n : Z)
| DBool (b : bool).

(** A [Map<String, dynamic>], in insertion order. *)
Definition DartMap : Type := list (string * Dynamic).

(** [map[key]]: [null] for a key that the map does not hold. *)
Fixpoint mapGet (map : DartMap) (key : string) : Dynamic :=
  match map with
  | [] => DNull
  | (k, v) :: others => if (k =? key)%string then v else mapGet others key
  end.

(** The fields are nullable strings (the file is not null safe). *)
Record FaqItem : Type := {
  faq_q : option string;
  faq_a : option string
}.

(** The implicit cast of a [dynamic] to [String] in an argument. *)
Definition asString (v : Dynamic) : result (option string) :=
  match v with
  | DNull => Returned None
  | DString s => Returned (Some s)
  | DNumber _ => Thrown (Error "type 'int' is not a subtype of type 'String'")
  | DBool _ => Thrown (Error "type 'bool' is not a subtype of type 'String'")
  end.

Definition ofString (s : option string) : Dynamic :=
  match s with
  | Some s => DString s
  | None => DNull
  end.

(** [q ?? this.q] *)
Definition orElse (s fallback : option string) : option string :=
  match s with
  | Some _ => s
  | None => fallback
  end.

Definition copyWith (this : FaqItem) (q a : option string) : FaqItem :=
  {| faq_q := orElse q (faq_q this); faq_a := orElse a (faq_a this) |}.

Definition toMap (this : FaqItem) : DartMap :=
  [("q", ofString (faq_q this)); ("a", ofString (faq_a this))].

(** [FaqItem.fromMap]; [None] is [null], as argument and as result. *)
Definition fromMap (map : option DartMap) : result (option FaqItem) :=
  match map with
  | None => Returned None
  | Some map =>
      await q <- asString (mapGet map "q") ;;
      await a <- asString (mapGet map "a") ;;
      Returned (Some {| faq_q := q; faq_a := a |})
  end.

Definition optionStringEqb (s t : option string) : bool :=
  match s, t with
  | Some s, Some t => (s =? t)%string
  | None, None => true
  | _, _ => false
  end.

(** [operator ==] against another [FaqItem]. *)
Definition faqEquals (this o : FaqItem) : bool :=
  optionStringEqb (faq_q o) (faq_q this) && optionStringEqb (faq_a o) (faq_a this).

(** [hashCode], over the [hashCode] of a nullable string. *)
Definition faqHashCode (stringHashCode : option string -> Z) (this : FaqItem) : Z :=
  Z.lxor (stringHashCode (faq_q this)) (stringHashCode (faq_a this)).

(** ** Vocabulary of the properties *)

(** The [updationTime] of every entry of the given pages, live or deleted. *)
Definition timesSeen (pages : list DiffResponse) : list Z :=
  map (fun f => updationTime (enc_rest f)) (flat_map diff pages).

(** The cursor after the given pages, for a fetch that started at [since]. *)
Definition cursorAfter (since : Z) (pages : list DiffResponse) : Z :=
  fold_left Z.max (timesSeen pages) since.

(** The entries of the pages, in page order, without those whose deletion
    flag is set. *)
Definition liveEntries (pages : list DiffResponse) : list EncryptedEnteFile :=
  filter (fun f => negb (isDeleted (enc_rest f))) (flat_map (fun p => diff p) pages).

(** The decrypted public overlay of a decrypted file, if it has one. *)
Definition overlayOf (pub : option (MagicMetadata FilePublicMagicMetadataProps))
    : option FilePublicMagicMetadataProps :=
  option_map (@mm_data _) pub.

(** The number of failed materializations at the end of a trace since the
    last successful one, counting on from [n]. *)
Definition strikesFrom (n : nat) (tr : list Event) : nat :=
  fold_left (fun n ev =>
               match ev with
               | EvMaterialized _ => 0%nat
               | EvFailed _ => S n
               | _ => n
               end) tr n.

Definition strikes (tr : list Event) : nat := strikesFrom 0 tr.

(** Along the trace, counting on from [n], no failure is the third in a row. *)
Fixpoint underThree (n : nat) (tr : list Event) : Prop :=
  match tr with
  | [] => True
  | EvFailed _ :: tr' => (S n < 3)%nat /\ underThree (S n) tr'
  | EvMaterialized _ :: tr' => underThree 0 tr'
  | _ :: tr' => underThree n tr'
  end.

(** After the events [tr], the URLs yielded and not yet revoked are [live],
    oldest first: the revoked URLs are the first that were yielded. *)
Definition outstanding (tr : list Event) (live : list string) : Prop :=
  yieldsOf tr = revokesOf tr ++ live.

Definition atMostTwoLive (tr : list Event) : Prop :=
  exists live, outstanding tr live /\ (List.length live <= 2)%nat.


(** Some file of the pass, as fetched and shuffled, materializes in the
    iteration that reaches it. *)
Definition passHasSuccess (F : MediaFormats) (castData : CastData) (p : PassEnv) : Prop :=
  exists files i encryptedFile url,
    completion (getEncryptedCollectionFiles (responses p) (castToken castData))
      = Some (Returned files)
    /\ nth_error (shuffled p files) i = Some encryptedFile
    /\ attempt F castData (envOf p i) encryptedFile = Materialized url.

(** The six ways through the loop body, in an environment that satisfies
    [EnvOk]. *)
Inductive bodyCase (EnvOk : Env -> Prop) (st : GenState) (have : bool)
    : Iteration -> Prop :=
| BodyDecryptFailed e :
    bodyCase EnvOk st have (Raise e st)
| BodySkipped fileID :
    bodyCase EnvOk st have (Next (skipped st fileID) have)
| BodyVended env url :
    EnvOk env ->
    bodyCase EnvOk st have (Next (vend env st url) true)
| BodyThirdStrike e :
    consecutiveFailures st + 1 = 3 ->
    bodyCase EnvOk st have (Raise e (caught st e))
| BodyUnauthorized e :
    consecutiveFailures st + 1 <> 3 ->
    isUnauthorized e = true ->
    bodyCase EnvOk st have (Raise e (caught st e))
| BodyCaught e :
    consecutiveFailures st + 1 <> 3 ->
    isUnauthorized e = false ->
    bodyCase EnvOk st have (Next (caught st e) have).

(** What an invariant [Inv] of the running generator, with [Fin e] for the
    state in which the error [e] leaves it, says of the end of an iteration
    and of the end of a run. *)
Definition holdsAfter (Inv : GenState -> Prop) (Fin : JsError -> GenState -> Prop)
    (it : Iteration) : Prop :=
  match it with
  | Next st _ => Inv st
  | Raise e st => Fin e st
  end.

Definition holdsAtEnd (Inv : GenState -> Prop) (Fin : JsError -> GenState -> Prop)
    (r : Run) : Prop :=
  match outcome r with
  | Threw e => Fin e (final r)
  | Done | Suspended => Inv (final r)
  end.

(** The events between a materialization and its yield. *)
Definition quiet (ev : Event) : Prop :=
  match ev with
  | EvRevoked _ | EvWaited _ => True
  | _ => False
  end.

(** The counter is the number of failures since the last success. *)
Definition counted (st : GenState) : Prop :=
  Z.of_nat (strikes (trace st)) = consecutiveFailures st.

Definition runningStrikes (st : GenState) : Prop :=
  counted st /\ underThree 0 (trace st).

Definition escapedStrikes (e : JsError) (st : GenState) : Prop :=
  counted st
  /\ (underThree 0 (trace st)
      \/ exists tr, trace st = tr ++ [EvFailed e] /\ underThree 0 tr).

(** No failure of the trace is an authorization failure. *)
Definition noneUnauthorized (tr : list Event) : Prop :=
  forall e, In (EvFailed e) tr -> isUnauthorized e = false.

Definition runningAuthorized (st : GenState) : Prop := noneUnauthorized (trace st).

Definition escapedAuthorized (e : JsError) (st : GenState) : Prop :=
  noneUnauthorized (trace st)
  \/ exists tr, trace st = tr ++ [EvFailed e] /\ noneUnauthorized tr.

(** The queue is the URLs yielded and not yet revoked, it holds at most two,
    and at no earlier point of the trace were more than two outstanding. *)
Definition windowed (st : GenState) : Prop :=
  outstanding (trace st) (previousURLs st)
  /\ (List.length (previousURLs st) <= 2)%nat
  /\ (forall n, atMostTwoLive (firstn n (trace st))).


(** ** A small world to run the model on *)

(** The text after the last dot of a name, if it has a dot. *)
Fixpoint extensionOf (s : string) : option string :=
  match s with
  | EmptyString => None
  | String c s' =>
      match extensionOf s' with
      | Some e => Some e
      | None => if Ascii.eqb c "."%char then Some s' else None
      end
  end.

(** Modelled from the spec: [nameAndExtension] of [@/next/file] and the
    extension tables of [@/media/formats] are not part of the sources at
    hand. This instance splits a title at its last dot, takes HEIC/HEIF and
    a few raw formats as the non-web image formats, and is used to run the
    model on examples. *)
Definition sampleFormats : MediaFormats :=
  {| nameAndExtension := fun fileName =>
       match extensionOf fileName with
       | Some e =>
           (substring 0 (String.length fileName - String.length e - 1) fileName, Some e)
       | None => (fileName, None)
       end;
     isNonWebImageFileExtension := fun extension =>
       match extension with
       | Some e => existsb (String.eqb e) ["heic"; "heif"; "tiff"; "tif"; "dng"; "cr2"; "nef"]
       | None => false
       end;
     isHEICExtension := fun extension =>
       match extension with
       | Some e => (e =? "heic")%string || (e =? "heif")%string
       | None => false
       end |}.

(** A crypto worker whose ciphertexts are readable: the metadata blob is the
    title, its header names the kind, the overlay blob names its contents;
    the key ["corrupt"] does not decrypt. *)
Definition sampleWorker : CryptoWorker :=
  {| decryptB64 := fun encryptedKey _ _ =>
       if (encryptedKey =? "corrupt")%string
       then Thrown (Error "could not decrypt the file key")
       else Returned encryptedKey;
     decryptMetadata := fun data header _ =>
       Returned {| title := data; creationTime := 1000; modificationTime := 1000;
                   fileType := if (header =? "video")%string then VIDEO
                               else if (header =? "live")%string then LIVE_PHOTO
                               else IMAGE |};
     decryptMagicMetadata := fun _ _ _ => Returned {| visibility := None |};
     decryptPubMagicMetadata := fun data _ _ =>
       Returned
         (if (data =? "edited")%string
          then {| editedTime := Some 2000; editedName := Some "renamed.png";
                  w := None; h := None |}
          else if (data =? "zeroed")%string
          then {| editedTime := Some 0; editedName := Some ""; w := None; h := None |}
          else {| editedTime := None; editedName := None; w := None; h := None |});
     decryptFile := fun data _ _ => Returned data;
     fromB64 := fun _ => Returned [] |}.

(** The decimal digit of a small id, for readable URLs. *)
Definition digit (n : Z) : string :=
  if (0 <=? n) && (n <? 10)
  then String (ascii_of_nat (48 + Z.to_nat n)) EmptyString
  else "n".

(** A world in which the file with id 401 is refused by the server, files
    with a negative id cannot be downloaded, and every other file is served;
    the served bytes spell the URL asked for, the sniffer goes by the name,
    and an object URL spells the bytes it stands for. *)
Definition sampleEnv (now1 now2 : Z) : Env :=
  {| getInstance := Returned sampleWorker;
     isChromecast := false;
     getCastFileURL := fun id =>
       if id =? 401 then "expired" else if id <? 0 then "unreachable"
       else ("file/" ++ digit id)%string;
     getCastThumbnailURL := fun id =>
       if id =? 401 then "expired" else if id <? 0 then "unreachable"
       else ("thumbnail/" ++ digit id)%string;
     httpGet := fun url _ =>
       if (url =? "expired")%string then Thrown (ApiError 401 "Unauthorized")
       else if (url =? "unreachable")%string then Thrown (Error "Network Error")
       else Returned (Some (list_byte_of_string url));
     decodeLivePhoto := fun fileName blob => Returned (blob_bytes blob, fileName);
     detectMediaMIMEType := fun fileName _ =>
       Returned (match extensionOf fileName with
                 | Some e => if (e =? "heic")%string then Some "image/heic"
                             else if (e =? "heif")%string then Some "image/heif"
                             else Some "image/jpeg"
                 | None => Some "image/jpeg"
                 end);
     heicConvert := fun blob =>
       Returned {| blob_bytes := list_byte_of_string "jpeg:" ++ blob_bytes blob;
                   blob_type := "image/jpeg" |};
     canvasResize := fun blob =>
       Returned {| blob_bytes := blob_bytes blob; blob_type := "image/jpeg" |};
     createObjectURL := fun blob =>
       ("blob:" ++ string_of_list_byte (blob_bytes blob))%string;
     nowAfterMaterialize := now1;
     nowAtYield := now2 |}.

(** An encrypted record of the sample world. *)
Definition sampleRecord (fileID : Z) (fileName kind : string) (size time : Z)
    (deleted : bool) (overlay : option string) : EncryptedEnteFile :=
  {| enc_rest := {| id := fileID;
                    file := {| decryptionHeader := "fh" |};
                    thumbnail := {| decryptionHeader := "th" |};
                    info := {| fileSize := size |};
                    updationTime := time;
                    isDeleted := deleted |};
     encryptedKey := "k";
     keyDecryptionNonce := "n";
     enc_metadata := {| encryptedData := fileName; encryptedDataHeader := kind |};
     enc_magicMetadata := None;
     enc_pubMagicMetadata :=
       match overlay with
       | Some data => Some {| emm_version := 1; emm_count := 1;
                              emm_data := data; emm_header := "ph" |}
       | None => None
       end |}.

(** The file that the sample worker decrypts [sampleRecord] to, when the
    record has no overlay. *)
Definition sampleFile (fileID : Z) (fileName : string) (kind : FILE_TYPE) (size time : Z)
    : EnteFile :=
  {| rest := {| id := fileID;
                file := {| decryptionHeader := "fh" |};
                thumbnail := {| decryptionHeader := "th" |};
                info := {| fileSize := size |};
                updationTime := time;
                isDeleted := false |};
     key := "k";
     metadata := {| title := fileName; creationTime := 1000;
                    modificationTime := 1000; fileType := kind |};
     magicMetadata := None;
     pubMagicMetadata := None |}.

Definition sampleImage (fileID : Z) : EncryptedEnteFile :=
  sampleRecord fileID "photo.jpg" "image" 5000 fileID false None.

(** A record whose file key does not decrypt. *)
Definition corruptRecord (fileID : Z) : EncryptedEnteFile :=
  {| enc_rest := enc_rest (sampleImage fileID);
     encryptedKey := "corrupt";
     keyDecryptionNonce := "n";
     enc_metadata := enc_metadata (sampleImage fileID);
     enc_magicMetadata := None;
     enc_pubMagicMetadata := None |}.

(** A record with both overlays, each given by its data if it has one. *)
Definition overlaidRecord (fileID : Z) (privateData publicData : option string)
    : EncryptedEnteFile :=
  let overlay data header :=
    option_map (fun d => {| emm_version := 1; emm_count := 1;
                            emm_data := d; emm_header := header |}) data in
  {| enc_rest := enc_rest (sampleImage fileID);
     encryptedKey := "k";
     keyDecryptionNonce := "n";
     enc_metadata := enc_metadata (sampleImage fileID);
     enc_magicMetadata := overlay privateData "mh";
     enc_pubMagicMetadata := overlay publicData "ph" |}.

(** The sample worker, but one that reads the private overlay: the data
    ["garbled"] does not decrypt, any other marks the file as hidden. *)
Definition pickyWorker : CryptoWorker :=
  {| decryptB64 := decryptB64 sampleWorker;
     decryptMetadata := decryptMetadata sampleWorker;
     decryptMagicMetadata := fun data _ _ =>
       if (data =? "garbled")%string
       then Thrown (Error "could not decrypt the overlay")
       else Returned {| visibility := Some 2 |};
     decryptPubMagicMetadata := decryptPubMagicMetadata sampleWorker;
     decryptFile := decryptFile sampleWorker;
     fromB64 := fromB64 sampleWorker |}.

Definition sampleCastData : CastData :=
  {| collectionKey := "ck"; castToken := "token" |}.

(** One pass of the sample world over the given records, served as a single
    diff page in the order given; iteration [i] ends at second [12 * (i + 1)]. *)
Definition samplePass (records : list EncryptedEnteFile) : PassEnv :=
  {| responses := [Returned {| diff := records; hasMore := false |}];
     shuffled := fun files => files;
     envOf := fun i => sampleEnv (12000 * Z.of_nat (S i) - 7000) (12000 * Z.of_nat (S i)) |}.





(** ** Vocabulary of further properties *)

(** An overlay of a record that is absent, or whose data is empty. *)
Definition withoutData (m : option EncryptedMagicMetadata) : Prop :=
  m = None \/ exists m0, m = Some m0 /\ emm_data m0 = "".

(** An overlay of a record that is absent, or whose data is empty, or whose
    data [decrypt] reads with the key [fileKey]. *)
Definition readableBy {D : Type} (decrypt : string -> string -> string -> result D)
    (fileKey : string) (m : option EncryptedMagicMetadata) : Prop :=
  withoutData m
  \/ exists m0 d, m = Some m0 /\ decrypt (emm_data m0) (emm_header m0) fileKey = Returned d.

(** The overlay [m] of a record with its data replaced by the decrypted [d]. *)
Definition decryptedAs {D : Type} (m : EncryptedMagicMetadata) (d : D) : MagicMetadata D :=
  {| mm_version := emm_version m; mm_count := emm_count m;
     mm_header := emm_header m; mm_data := d |}.

(** The width and height that [needsResize] goes by: both present in the
    public overlay and neither 0. *)
Definition knownDimensions (file' : EnteFile) : option (Z * Z) :=
  match pubMagicMetadata file' with
  | Some p =>
      match w (mm_data p), h (mm_data p) with
      | Some w, Some h => if truthyNumber w && truthyNumber h then Some (w, h) else None
      | _, _ => None
      end
  | None => None
  end.

(** [env] with another live photo decoder and another URL for full files. *)
Definition withDecoder (env : Env) (decode : string -> Blob -> result (bytes * string))
    (fileURL : Z -> string) : Env :=
  {| getInstance := getInstance env;
     isChromecast := isChromecast env;
     getCastFileURL := fileURL;
     getCastThumbnailURL := getCastThumbnailURL env;
     httpGet := httpGet env;
     decodeLivePhoto := decode;
     detectMediaMIMEType := detectMediaMIMEType env;
     heicConvert := heicConvert env;
     canvasResize := canvasResize env;
     createObjectURL := createObjectURL env;
     nowAfterMaterialize := nowAfterMaterialize env;
     nowAtYield := nowAtYield env |}.

(** [env] with another canvas. *)
Definition withCanvas (env : Env) (canvas : Blob -> result Blob) : Env :=
  {| getInstance := getInstance env;
     isChromecast := isChromecast env;
     getCastFileURL := getCastFileURL env;
     getCastThumbnailURL := getCastThumbnailURL env;
     httpGet := httpGet env;
     decodeLivePhoto := decodeLivePhoto env;
     detectMediaMIMEType := detectMediaMIMEType env;
     heicConvert := heicConvert env;
     canvasResize := canvas;
     createObjectURL := createObjectURL env;
     nowAfterMaterialize := nowAfterMaterialize env;
     nowAtYield := nowAtYield env |}.

(** [env] with another MIME sniffer. *)
Definition withSniffer (env : Env) (sniff : string -> Blob -> result (option string)) : Env :=
  {| getInstance := getInstance env;
     isChromecast := isChromecast env;
     getCastFileURL := getCastFileURL env;
     getCastThumbnailURL := getCastThumbnailURL env;
     httpGet := httpGet env;
     decodeLivePhoto := decodeLivePhoto env;
     detectMediaMIMEType := sniff;
     heicConvert := heicConvert env;
     canvasResize := canvasResize env;
     createObjectURL := createObjectURL env;
     nowAfterMaterialize := nowAfterMaterialize env;
     nowAtYield := nowAtYield env |}.

(** What the iterations of a pass over [encryptedFiles] come to, one after
    the other, the first of them being iteration [i]. *)
Fixpoint attemptsOf (F : MediaFormats) (castData : CastData) (envs : nat -> Env)
    (i : nat) (encryptedFiles : list EncryptedEnteFile) : list Attempt :=
  match encryptedFiles with
  | [] => []
  | encryptedFile :: others =>
      attempt F castData (envs i) encryptedFile
        :: attemptsOf F castData envs (S i) others
  end.

(** The URLs of the attempts that materialize, in order. *)
Definition urlsOf (attempts : list Attempt) : list string :=
  flat_map (fun a => match a with Materialized url => [url] | _ => [] end) attempts.

(** The number of attempts whose materialization fails. *)
Definition failuresOf (attempts : list Attempt) : nat :=
  List.length (filter (fun a => match a with MaterializeFailed _ => true | _ => false end)
                 attempts).

(** An attempt that neither shows a slide nor ends the run by itself: the
    file is not eligible, or its materialization fails with an error that
    is not an authorization failure. *)
Definition fruitless (a : Attempt) : Prop :=
  match a with
  | Ineligible _ => True
  | MaterializeFailed e => isUnauthorized e = false
  | _ => False
  end.

(** The counter after the attempts of a pass, when it read [counter] before
    them and none of them ended the run: a success sets it to 0, a failed
    materialization adds 1. *)
Definition counterAfter (counter : Z) (attempts : list Attempt) : Z :=
  fold_left (fun n a =>
               match a with
               | Materialized _ => 0
               | MaterializeFailed _ => n + 1
               | _ => n
               end) attempts counter.

(** No attempt of the pass ends the run, the counter reading [counter] when
    the pass starts: no file fails to decrypt, no materialization fails with
    an authorization error, and none is the third to fail in a row. *)
Fixpoint runsToEnd (counter : Z) (attempts : list Attempt) : bool :=
  match attempts with
  | [] => true
  | DecryptFailed _ :: _ => false
  | Ineligible _ :: others => runsToEnd counter others
  | Materialized _ :: others => runsToEnd 0 others
  | MaterializeFailed e :: others =>
      negb (counter + 1 =? 3) && negb (isUnauthorized e) && runsToEnd (counter + 1) others
  end.

(** Some attempt of the pass materializes. *)
Definition showsSlide (attempts : list Attempt) : bool :=
  existsb (fun a => match a with Materialized _ => true | _ => false end) attempts.

(** What the awaited calls of one pass come to: how the fetch completes
    ([None]: it is still pending) and, when it returns files, the attempts
    on them in the shuffled order. *)
Definition passAttempts (F : MediaFormats) (castData : CastData) (p : PassEnv)
    : option (result (list Attempt)) :=
  match completion (getEncryptedCollectionFiles (responses p) (castToken castData)) with
  | Some (Returned files) =>
      Some (Returned (attemptsOf F castData (envOf p) 0 (shuffled p files)))
  | Some (Thrown e) => Some (Thrown e)
  | None => None
  end.

(** Some pass is fetched and runs to its end without a slide, and every pass
    before it is fetched and runs to its end with one; [counter] is what the
    counter reads when the first of the passes starts. *)
Fixpoint returnsAfter (counter : Z) (passes : list (option (result (list Attempt))))
    : bool :=
  match passes with
  | Some (Returned attempts) :: later =>
      runsToEnd counter attempts
      && (negb (showsSlide attempts) || returnsAfter (counterAfter counter attempts) later)
  | _ => false
  end.

(** After the events [tr], the URLs yielded and not yet revoked are the last
    one or the last two that were yielded, or nothing was yielded. *)
Definition screenKept (tr : list Event) : Prop :=
  exists live,
    outstanding tr live
    /\ (List.length live <= 2)%nat
    /\ (live = [] -> yieldsOf tr = []).

(** The queue holds the last two URLs yielded, and at no earlier point of
    the trace was the URL yielded last revoked. *)
Definition lastTwo (st : GenState) : Prop :=
  windowed st
  /\ List.length (previousURLs st) = Nat.min 2 (List.length (yieldsOf (trace st)))
  /\ (forall n, screenKept (firstn n (trace st))).

(** The sample world with a sniffer that recognizes nothing. *)
Definition blindEnv : Env :=
  {| getInstance := getInstance (sampleEnv 0 0);
     isChromecast := false;
     getCastFileURL := getCastFileURL (sampleEnv 0 0);
     getCastThumbnailURL := getCastThumbnailURL (sampleEnv 0 0);
     httpGet := httpGet (sampleEnv 0 0);
     decodeLivePhoto := decodeLivePhoto (sampleEnv 0 0);
     detectMediaMIMEType := fun _ _ => Returned None;
     heicConvert := heicConvert (sampleEnv 0 0);
     canvasResize := canvasResize (sampleEnv 0 0);
     createObjectURL := createObjectURL (sampleEnv 0 0);
     nowAfterMaterialize := 0;
     nowAtYield := 0 |}.

(** The sample world on a Chromecast. *)
Definition chromecastEnv : Env :=
  {| getInstance := getInstance (sampleEnv 0 0);
     isChromecast := true;
     getCastFileURL := getCastFileURL (sampleEnv 0 0);
     getCastThumbnailURL := getCastThumbnailURL (sampleEnv 0 0);
     httpGet := httpGet (sampleEnv 0 0);
     decodeLivePhoto := decodeLivePhoto (sampleEnv 0 0);
     detectMediaMIMEType := detectMediaMIMEType (sampleEnv 0 0);
     heicConvert := heicConvert (sampleEnv 0 0);
     canvasResize := canvasResize (sampleEnv 0 0);
     createObjectURL := createObjectURL (sampleEnv 0 0);
     nowAfterMaterialize := 0;
     nowAtYield := 0 |}.

(** * Properties *)

Unset Implicit Arguments.

(** ** The diff fetcher *)

Module Fetcher.

Lemma timesSeen_cons p pages :
  timesSeen (p :: pages) =
  map (fun f => updationTime (enc_rest f)) (diff p) ++ timesSeen pages.
Proof. unfold timesSeen; simpl; now rewrite map_app. Qed.

Lemma maxUpdationTime_fold d since :
  maxUpdationTime d since =
  fold_left Z.max (map (fun f => updationTime (enc_rest f)) d) since.
Proof.
  unfold maxUpdationTime; revert since.
  induction d as [|f d IH]; intros since; simpl; [reflexivity | apply IH].
Qed.

Lemma cursorAfter_cons since p pages :
  cursorAfter since (p :: pages) = cursorAfter (maxUpdationTime (diff p) since) pages.
Proof.
  unfold cursorAfter.
  now rewrite timesSeen_cons, fold_left_app, maxUpdationTime_fold.
Qed.

(** [fold_left Z.max l since] is the greatest of [since] and the elements of [l]. *)
Lemma fold_max_spec (l : list Z) (since : Z) :
  since <= fold_left Z.max l since
  /\ (forall t, In t l -> t <= fold_left Z.max l since)
  /\ (fold_left Z.max l since = since \/ In (fold_left Z.max l since) l).
Proof.
  revert since; induction l as [|x l IH]; intros since; simpl.
  - repeat split; [lia | tauto | now left].
  - destruct (IH (Z.max since x)) as (Hge & Hall & Hin).
    repeat split.
    + lia.
    + intros t [<-|Ht]; [lia | now apply Hall].
    + destruct Hin as [Heq|Hin]; [|now right; right].
      rewrite Heq. destruct (Z.max_spec since x) as [[_ ->]|[_ ->]]; auto.
Qed.

Lemma cursorAfter_app since pages pages' :
  cursorAfter since (pages ++ pages') = cursorAfter (cursorAfter since pages) pages'.
Proof.
  unfold cursorAfter, timesSeen.
  now rewrite flat_map_app, map_app, fold_left_app.
Qed.

Lemma cursorAfter_firstn_mono since pages j k :
  (j <= k)%nat -> cursorAfter since (firstn j pages) <= cursorAfter since (firstn k pages).
Proof.
  intros Hjk. replace k with (j + (k - j))%nat by lia.
  generalize (k - j)%nat as d; clear Hjk k; intros d.
  revert since pages; induction j as [|j IH]; intros since pages.
  - destruct (fold_max_spec (timesSeen (firstn d pages)) since) as [Hge _].
    exact Hge.
  - destruct pages as [|p pages]; simpl; [lia|].
    rewrite !cursorAfter_cons. apply IH.
Qed.

Lemma liveEntries_cons p pages :
  liveEntries (p :: pages) = liveFiles (diff p) ++ liveEntries pages.
Proof. unfold liveEntries, liveFiles; simpl. now rewrite filter_app. Qed.

Lemma liveEntries_In pages f :
  In f (liveEntries pages) <->
  isDeleted (enc_rest f) = false /\ exists p, In p pages /\ In f (diff p).
Proof.
  unfold liveEntries. rewrite filter_In, in_flat_map, negb_true_iff. tauto.
Qed.

(** The loop on a script that starts with the pages [before ++ [last]], where
    [last] is the first page without [hasMore]. *)
Lemma fetchLoop_pages castToken before last later files since :
  Forall (fun p => hasMore p = true) before ->
  hasMore last = false ->
  let pages := before ++ [last] in
  let r := fetchLoop castToken (map Returned pages ++ later) files since in
  completion r = Some (Returned (files ++ liveEntries pages))
  /\ requests r =
     map (fun k => {| req_sinceTime := cursorAfter since (firstn k pages);
                      req_token := castToken |})
         (seq 0 (List.length pages))
  /\ cursor r = cursorAfter since pages.
Proof.
  intros Hmore Hlast; revert files since.
  induction Hmore as [|p before Hp _ IH]; intros files since; simpl.
  - rewrite Hlast; simpl. rewrite liveEntries_cons. unfold liveEntries at 1; simpl.
    rewrite app_nil_r. repeat split. now rewrite cursorAfter_cons.
  - rewrite Hp; simpl.
    destruct (IH (files ++ liveFiles (diff p)) (maxUpdationTime (diff p) since))
      as (Hc & Hr & Hk).
    repeat split.
    + rewrite Hc. rewrite (liveEntries_cons p). now rewrite app_assoc.
    + rewrite Hr. f_equal. rewrite <- seq_shift, map_map.
      apply map_ext; intros k. simpl. now rewrite cursorAfter_cons.
    + rewrite Hk. now rewrite cursorAfter_cons.
Qed.

(** C8. Whatever pages the server returns, with [last] the first one that
    does not signal [hasMore]: the fetcher returns the entries of the pages
    up to [last], in page order, without those whose deletion flag is set:
    an entry is returned exactly when it is on one of these pages and its
    flag is unset, and when no flag is set all entries are returned; it
    sends exactly one request per such page, none after [last]; the first
    request carries cursor 0 and the request after [k] pages carries the
    greatest [updationTime] seen in those pages, deleted entries included
    (never below the starting cursor 0), so the cursor never decreases. *)
Theorem getEncryptedCollectionFiles_pages castToken before last later :
  Forall (fun p => hasMore p = true) before ->
  hasMore last = false ->
  let pages := before ++ [last] in
  let r := getEncryptedCollectionFiles (map Returned pages ++ later) castToken in
  let cursorAt k := cursorAfter 0 (firstn k pages) in
  completion r = Some (Returned (liveEntries pages))
  /\ (forall f, In f (liveEntries pages) <->
        isDeleted (enc_rest f) = false /\ exists p, In p pages /\ In f (diff p))
  /\ (Forall (fun p => Forall (fun f => isDeleted (enc_rest f) = false) (diff p)) pages ->
      liveEntries pages = flat_map (fun p => diff p) pages)
  /\ List.length (requests r) = List.length pages
  /\ (forall k, (k < List.length pages)%nat ->
        nth_error (requests r) k =
        Some {| req_sinceTime := cursorAt k; req_token := castToken |})
  /\ cursorAt 0%nat = 0
  /\ cursor r = cursorAt (List.length pages)
  /\ (forall k, 0 <= cursorAt k
        /\ (forall t, In t (timesSeen (firstn k pages)) -> t <= cursorAt k)
        /\ (cursorAt k = 0 \/ In (cursorAt k) (timesSeen (firstn k pages))))
  /\ (forall j k, (j <= k)%nat -> cursorAt j <= cursorAt k).
Proof.
  intros Hmore Hlast pages r cursorAt.
  destruct (fetchLoop_pages castToken before last later [] 0 Hmore Hlast)
    as (Hc & Hr & Hk).
  fold pages in Hc, Hr, Hk.
  change (fetchLoop castToken (map Returned pages ++ later) [] 0) with r in Hc, Hr, Hk.
  split; [exact Hc|].
  split; [intros f; apply liveEntries_In|].
  split.
  { intros Hnone. unfold liveEntries. apply forallb_filter_id.
    apply forallb_forall. intros f Hf. apply in_flat_map in Hf as (p & Hp & Hf).
    rewrite Forall_forall in Hnone. specialize (Hnone p Hp).
    rewrite Forall_forall in Hnone. now rewrite (Hnone f Hf). }
  repeat split.
  - rewrite Hr. now rewrite length_map, length_seq.
  - intros k Hlt. rewrite Hr.
    rewrite nth_error_map, nth_error_seq.
    apply Nat.ltb_lt in Hlt. now rewrite Hlt.
  - rewrite Hk. unfold cursorAt. now rewrite firstn_all.
  - destruct (fold_max_spec (timesSeen (firstn k pages)) 0) as (Hge & _ & _); exact Hge.
  - destruct (fold_max_spec (timesSeen (firstn k pages)) 0) as (_ & Hall & _); exact Hall.
  - destruct (fold_max_spec (timesSeen (firstn k pages)) 0) as (_ & _ & Hin); exact Hin.
  - intros j k. apply cursorAfter_firstn_mono.
Qed.

(** A two-page fetch in which each page holds a deleted entry, the first page
    at its head and the second at its end: both are dropped, the four live
    entries come back in page order, and the second request carries the
    greatest time of the first page, which is that of its deleted entry. *)
Lemma getEncryptedCollectionFiles_pages_witness :
  let gone id := sampleRecord id "gone.jpg" "image" 1 (id + 10) true None in
  let page1 := {| diff := [gone 2; sampleImage 7; sampleImage 8]; hasMore := true |} in
  let page2 := {| diff := [sampleImage 3; sampleImage 1; gone 5]; hasMore := false |} in
  let r := getEncryptedCollectionFiles [Returned page1; Returned page2] "token" in
  completion r
  = Some (Returned [sampleImage 7; sampleImage 8; sampleImage 3; sampleImage 1])
  /\ requests r = [ {| req_sinceTime := 0; req_token := "token" |};
                    {| req_sinceTime := 12; req_token := "token" |} ]
  /\ cursor r = 15.
Proof.
  intros gone page1 page2 r.
  assert (Hmore : Forall (fun p => hasMore p = true) [page1])
    by (constructor; [reflexivity | constructor]).
  assert (Hlast : hasMore page2 = false) by reflexivity.
  pose proof (getEncryptedCollectionFiles_pages "token" [page1] page2 [] Hmore Hlast) as H.
  cbv zeta in H.
  destruct H as (Hc & _ & _ & _ & _ & _ & Hk & _).
  split; [exact Hc|]. split; [reflexivity|]. exact Hk.
Defined.

End Fetcher.

(** ** The file decryptor *)

Module Decryptor.

Lemma applyEditedTime_title pub m :
  title (applyEditedTime pub m) = title m.
Proof.
  destruct pub as [p|]; simpl; [|reflexivity].
  destruct (editedTime (mm_data p)) as [t|]; [|reflexivity].
  now destruct (truthyNumber t).
Qed.

Lemma applyEditedName_creationTime pub m :
  creationTime (applyEditedName pub m) = creationTime m.
Proof.
  destruct pub as [p|]; simpl; [|reflexivity].
  destruct (editedName (mm_data p)) as [s|]; [|reflexivity].
  now destruct (truthyString s).
Qed.

Lemma truthyNumber_true t : t <> 0 -> truthyNumber t = true.
Proof. intros Ht; unfold truthyNumber. now apply negb_true_iff, Z.eqb_neq. Qed.

Lemma truthyString_true s : s <> "" -> truthyString s = true.
Proof. intros Hs; unfold truthyString. now apply negb_true_iff, String.eqb_neq. Qed.

(** C6 (as the code has it). When the worker decrypts the key, the core
    metadata and the overlays of a record, the decryptor returns a file that
    carries the decrypted public overlay, and in which: an overlay
    [editedTime] other than 0 is the creation time; an overlay [editedName]
    other than the empty string is the title; a field that the overlay does
    not define, or defines as 0 or as the empty string, keeps the core
    metadata's value; and without a public overlay the metadata is the core
    metadata. *)
Theorem decryptEnteFile_overlay worker encryptedFile collectionKey fileKey core priv pub :
  decryptB64 worker (encryptedKey encryptedFile) (keyDecryptionNonce encryptedFile)
    collectionKey = Returned fileKey ->
  decryptMetadata worker (encryptedData (enc_metadata encryptedFile))
    (encryptedDataHeader (enc_metadata encryptedFile)) fileKey = Returned core ->
  decryptOverlay (decryptMagicMetadata worker) (enc_magicMetadata encryptedFile) fileKey
    = Returned priv ->
  decryptOverlay (decryptPubMagicMetadata worker) (enc_pubMagicMetadata encryptedFile)
    fileKey = Returned pub ->
  exists file',
    decryptEnteFile (Returned worker) encryptedFile collectionKey = Returned file'
    /\ pubMagicMetadata file' = pub
    /\ (forall d t, overlayOf pub = Some d -> editedTime d = Some t -> t <> 0 ->
          creationTime (metadata file') = t)
    /\ (forall d s, overlayOf pub = Some d -> editedName d = Some s -> s <> "" ->
          title (metadata file') = s)
    /\ (forall d, overlayOf pub = Some d ->
          editedTime d = None \/ editedTime d = Some 0 ->
          creationTime (metadata file') = creationTime core)
    /\ (forall d, overlayOf pub = Some d ->
          editedName d = None \/ editedName d = Some "" ->
          title (metadata file') = title core)
    /\ (pub = None -> metadata file' = core).
Proof.
  intros Hkey Hcore Hpriv Hpub.
  eexists. split.
  { unfold decryptEnteFile; simpl. rewrite Hkey; simpl. rewrite Hcore; simpl.
    rewrite Hpriv; simpl. rewrite Hpub; simpl. reflexivity. }
  simpl. split; [reflexivity|].
  repeat split.
  - intros d t Hd Ht Hnz. rewrite applyEditedName_creationTime.
    destruct pub as [p|]; simpl in Hd; [|discriminate].
    injection Hd as <-. simpl. rewrite Ht, (truthyNumber_true t Hnz). reflexivity.
  - intros d s Hd Hs Hne.
    destruct pub as [p|]; simpl in Hd; [|discriminate].
    injection Hd as <-. simpl. rewrite Hs, (truthyString_true s Hne). reflexivity.
  - intros d Hd Ht. rewrite applyEditedName_creationTime.
    destruct pub as [p|]; simpl in Hd; [|discriminate].
    injection Hd as <-. simpl. now destruct Ht as [-> | ->].
  - intros d Hd Hs.
    destruct pub as [p|]; simpl in Hd; [|discriminate].
    injection Hd as <-. simpl.
    destruct Hs as [-> | ->]; simpl; exact (applyEditedTime_title (Some p) core).
  - now intros ->.
Qed.

(** A record renamed and re-dated by its public overlay. *)
Lemma decryptEnteFile_overlay_witness :
  exists file',
    decryptEnteFile (Returned sampleWorker)
      (sampleRecord 1 "IMG_0001.heic" "image" 5000 10 false (Some "edited")) "ck"
    = Returned file'
    /\ creationTime (metadata file') = 2000
    /\ title (metadata file') = "renamed.png".
Proof.
  destruct (decryptEnteFile_overlay sampleWorker
              (sampleRecord 1 "IMG_0001.heic" "image" 5000 10 false (Some "edited")) "ck"
              "k"
              {| title := "IMG_0001.heic"; creationTime := 1000;
                 modificationTime := 1000; fileType := IMAGE |}
              None
              (Some {| mm_version := 1; mm_count := 1; mm_header := "ph";
                       mm_data := {| editedTime := Some 2000;
                                     editedName := Some "renamed.png";
                                     w := None; h := None |} |})
              eq_refl eq_refl eq_refl eq_refl)
    as (file' & Hrun & _ & Htime & Hname & _).
  exists file'. split; [exact Hrun|]. split.
  - apply (Htime _ 2000 eq_refl eq_refl). discriminate.
  - apply (Hname _ "renamed.png" eq_refl eq_refl). discriminate.
Defined.

(** C6 as stated fails where the overlay defines [editedTime] as 0: the
    returned file carries that overlay, yet its creation time is the core
    metadata's 1000 and not the overlay's 0. *)
Lemma decryptEnteFile_overlay_zero_time :
  exists file' p,
    decryptEnteFile (Returned sampleWorker)
      (sampleRecord 1 "IMG_0001.heic" "image" 5000 10 false (Some "zeroed")) "ck"
    = Returned file'
    /\ pubMagicMetadata file' = Some p
    /\ editedTime (mm_data p) = Some 0
    /\ creationTime (metadata file') = 1000
    /\ creationTime (metadata file') <> 0.
Proof.
  eexists. eexists. split; [reflexivity|].
  split; [reflexivity|]. split; [reflexivity|]. split; [reflexivity|].
  discriminate.
Qed.

End Decryptor.

(** ** The eligibility filter *)

Module Eligibility.

Lemma isImageOrLivePhoto_iff file' :
  isImageOrLivePhoto file' = true <->
  fileType (metadata file') = IMAGE \/ fileType (metadata file') = LIVE_PHOTO.
Proof.
  unfold isImageOrLivePhoto.
  destruct (fileType (metadata file')); simpl; split; intros H;
    try discriminate; try reflexivity; auto; destruct H; discriminate.
Qed.

(** C7. A file that is neither an image nor a live photo is rejected, and so
    is a file larger than 100 MiB, whatever its extension. For any other
    file, with [extension] the extension of its title: when [extension]
    denotes a non-web image format the file is eligible exactly when
    [extension] is a HEIC extension; otherwise it is eligible. *)
Theorem isFileEligible_spec (F : MediaFormats) (file' : EnteFile) :
  let extension := snd (nameAndExtension F (title (metadata file'))) in
  (fileType (metadata file') <> IMAGE /\ fileType (metadata file') <> LIVE_PHOTO ->
     isFileEligible F file' = false)
  /\ (fileSize (info (rest file')) > 100 * 1024 * 1024 -> isFileEligible F file' = false)
  /\ ((fileType (metadata file') = IMAGE \/ fileType (metadata file') = LIVE_PHOTO) ->
      fileSize (info (rest file')) <= 100 * 1024 * 1024 ->
      (isNonWebImageFileExtension F extension = true ->
         isFileEligible F file' = isHEICExtension F extension)
      /\ (isNonWebImageFileExtension F extension = false ->
         isFileEligible F file' = true)).
Proof.
  intros extension. unfold isFileEligible.
  destruct (isImageOrLivePhoto file') eqn:Hkind;
    destruct (fileSize (info (rest file')) >? 100 * 1024 * 1024) eqn:Hbig;
    cbn [negb];
    try (apply Z.gtb_lt in Hbig);
    try (rewrite Z.gtb_ltb in Hbig; apply Z.ltb_ge in Hbig).
  - split; [reflexivity|]. split; [reflexivity|]. intros _ Hsize; lia.
  - apply isImageOrLivePhoto_iff in Hkind.
    split; [intros [H1 H2]; destruct Hkind; contradiction|].
    split; [intros Hsize; lia|].
    intros _ _. subst extension.
    destruct (nameAndExtension F (title (metadata file'))) as [name ext]; simpl.
    split; intros ->; reflexivity.
  - split; [reflexivity|]. split; [reflexivity|].
    intros Hk. apply isImageOrLivePhoto_iff in Hk. congruence.
  - split; [reflexivity|]. split; [reflexivity|].
    intros Hk. apply isImageOrLivePhoto_iff in Hk. congruence.
Qed.

(** The filter on files of the sample world: a JPEG and a HEIC image pass; a
    video, an image of more than 100 MiB (even a JPEG) and a TIFF do not. *)
Example isFileEligible_samples :
  isFileEligible sampleFormats (sampleFile 1 "a.jpg" IMAGE 5000 1) = true
  /\ isFileEligible sampleFormats (sampleFile 2 "b.heic" LIVE_PHOTO 5000 2) = true
  /\ isFileEligible sampleFormats (sampleFile 3 "c.jpg" VIDEO 5000 3) = false
  /\ isFileEligible sampleFormats (sampleFile 4 "d.jpg" IMAGE (100 * 1024 * 1024 + 1) 4)
     = false
  /\ isFileEligible sampleFormats (sampleFile 5 "e.jpg" IMAGE (100 * 1024 * 1024) 5) = true
  /\ isFileEligible sampleFormats (sampleFile 6 "f.tiff" IMAGE 5000 6) = false.
Proof. repeat split. Qed.

End Eligibility.

(** ** The content materializer *)

Module Materializer.

Lemma isHEICMimeType_true mimeType :
  mimeType = "image/heic" \/ mimeType = "image/heif" -> isHEICMimeType mimeType = true.
Proof. intros [-> | ->]; reflexivity. Qed.

Lemma truthy_HEIC mimeType :
  mimeType = "image/heic" \/ mimeType = "image/heif" -> truthyString mimeType = true.
Proof. intros [-> | ->]; reflexivity. Qed.

(** The two HEIC types are what [new Blob] stores for them. *)
Lemma blobType_HEIC mimeType :
  mimeType = "image/heic" \/ mimeType = "image/heif" -> blobType mimeType = mimeType.
Proof. intros [-> | ->]; reflexivity. Qed.

(** C10. When the bytes that were downloaded (and, for a live photo, split)
    sniff as [image/heic] or [image/heif] and the HEIC worker converts them,
    [renderableImageBlob] returns the converted bytes under the sniffed
    type: the blob's type is the HEIC/HEIF type, not the type of the JPEG the
    worker returned; and where no resize is needed that blob is the one the
    object URL is made for. *)
Theorem renderableImageBlob_heic_type F env castToken file' downloaded fileName blob
    mimeType jpeg :
  let ext := snd (nameAndExtension F (title (metadata file'))) in
  let shouldUseThumbnail := isChromecast env && isHEICExtension F ext in
  downloadFile env castToken file' shouldUseThumbnail = Returned downloaded ->
  stillImage env file' shouldUseThumbnail (title (metadata file')) downloaded
    = Returned (fileName, blob) ->
  detectMediaMIMEType env fileName blob = Returned (Some mimeType) ->
  mimeType = "image/heic" \/ mimeType = "image/heif" ->
  heicToJPEG env blob = Returned jpeg ->
  let returned := {| blob_bytes := blob_bytes jpeg; blob_type := mimeType |} in
  renderableImageBlob F env castToken file' = Returned returned
  /\ blob_type returned = mimeType
  /\ blob_type returned <> "image/jpeg"
  /\ (needsResize env file' = false ->
      createRenderableURL F env castToken file' = Returned (createObjectURL env returned)).
Proof.
  intros ext shouldUseThumbnail Hdl Hstill Hsniff Hheic Hjpeg returned.
  assert (Hblob : renderableImageBlob F env castToken file' = Returned returned).
  { unfold renderableImageBlob.
    subst ext shouldUseThumbnail.
    destruct (nameAndExtension F (title (metadata file'))) as [name ext]; simpl in *.
    rewrite Hdl; simpl. rewrite Hstill; simpl. rewrite Hsniff; simpl.
    rewrite (truthy_HEIC _ Hheic), (isHEICMimeType_true _ Hheic); simpl.
    rewrite Hjpeg; simpl. unfold newTypedBlob.
    rewrite (blobType_HEIC _ Hheic). reflexivity. }
  split; [exact Hblob|]. split; [reflexivity|]. split.
  - simpl. destruct Hheic as [-> | ->]; discriminate.
  - intros Hno. unfold createRenderableURL. rewrite Hblob, Hno. reflexivity.
Qed.

(** A HEIC image of the sample world: the worker's JPEG comes back typed
    [image/heic]. *)
Lemma renderableImageBlob_heic_type_witness :
  let file' := sampleFile 4 "IMG_0004.heic" IMAGE 5000 10 in
  decryptEnteFile (Returned sampleWorker)
    (sampleRecord 4 "IMG_0004.heic" "image" 5000 10 false None) "ck" = Returned file'
  /\ renderableImageBlob sampleFormats (sampleEnv 0 0) "token" file'
     = Returned {| blob_bytes := list_byte_of_string "jpeg:file/4";
                   blob_type := "image/heic" |}.
Proof.
  split; [reflexivity|].
  refine (proj1 (renderableImageBlob_heic_type sampleFormats (sampleEnv 0 0) "token"
            (sampleFile 4 "IMG_0004.heic" IMAGE 5000 10)
            (newBlob (list_byte_of_string "file/4")) "IMG_0004.heic"
            (newBlob (list_byte_of_string "file/4")) "image/heic"
            {| blob_bytes := list_byte_of_string "jpeg:file/4"; blob_type := "image/jpeg" |}
            eq_refl eq_refl eq_refl (or_introl eq_refl) eq_refl)).
Defined.

End Materializer.

(** ** The playback scheduler *)

Module Scheduler.

(** *** The ways one iteration can end *)

Lemma loopBody_case (EnvOk : Env -> Prop) F castData env st have encryptedFile :
  EnvOk env ->
  bodyCase EnvOk st have (loopBody F castData env st have encryptedFile).
Proof.
  intros Hok. unfold loopBody.
  destruct (attempt F castData env encryptedFile) as [e|fileID|url|e].
  - constructor.
  - constructor.
  - now constructor.
  - cbv zeta. change (consecutiveFailures (caught st e)) with (consecutiveFailures st + 1).
    destruct (consecutiveFailures st + 1 =? 3) eqn:H3.
    + apply Z.eqb_eq in H3. now apply BodyThirdStrike.
    + apply Z.eqb_neq in H3.
      destruct (isUnauthorized e) eqn:Hauth.
      * now apply BodyUnauthorized.
      * now apply BodyCaught.
Qed.

(** *** Invariants of a run *)

Section Invariant.

Variable EnvOk : Env -> Prop.
(** [Inv] holds of the state while the generator runs, [Fin e] of the state
    in which the error [e] leaves it. *)
Variable Inv : GenState -> Prop.
Variable Fin : JsError -> GenState -> Prop.

Hypothesis Preserve : forall st have st' have',
  Inv st -> bodyCase EnvOk st have (Next st' have') -> Inv st'.
Hypothesis Escape : forall st have e st',
  Inv st -> bodyCase EnvOk st have (Raise e st') -> Fin e st'.

Lemma forLoop_invariant F castData envOf encryptedFiles :
  (forall i, EnvOk (envOf i)) ->
  forall i st have,
    Inv st -> holdsAfter Inv Fin (forLoop F castData envOf i st have encryptedFiles).
Proof.
  intros Hok.
  induction encryptedFiles as [|encryptedFile others IH]; intros i st have Hinv; simpl.
  - exact Hinv.
  - pose proof (loopBody_case EnvOk F castData (envOf i) st have encryptedFile (Hok i))
      as Hcase.
    destruct (loopBody F castData (envOf i) st have encryptedFile) as [st' have'|e st'].
    + apply IH. exact (Preserve st have st' have' Hinv Hcase).
    + exact (Escape st have e st' Hinv Hcase).
Qed.

Lemma outerLoop_invariant F castData ps :
  Forall (fun p => forall i, EnvOk (envOf p i)) ps ->
  forall st, Inv st -> holdsAtEnd Inv Fin (outerLoop F castData ps st).
Proof.
  intros Hok. induction Hok as [|p later Hp _ IH]; intros st Hinv; simpl.
  - exact Hinv.
  - destruct (completion (getEncryptedCollectionFiles (responses p) (castToken castData)))
      as [[files|e]|].
    + pose proof (forLoop_invariant F castData (envOf p) (shuffled p files) Hp 0%nat
                    st false Hinv) as Hloop.
      destruct (forLoop F castData (envOf p) 0 st false (shuffled p files))
        as [st' have'|e st'].
      * destruct have'; simpl; [|exact Hloop].
        exact (IH st' Hloop).
      * exact Hloop.
    + exact (Escape st false e st Hinv (BodyDecryptFailed EnvOk st false e)).
    + exact Hinv.
Qed.

End Invariant.

Lemma every_env_ok (ps : list PassEnv) :
  Forall (fun p => forall i : nat, (fun _ : Env => True) (envOf p i)) ps.
Proof. apply Forall_forall. intros p _ i. exact I. Qed.

(** *** Traces *)

Lemma yieldsOf_app tr tr' : yieldsOf (tr ++ tr') = yieldsOf tr ++ yieldsOf tr'.
Proof. apply flat_map_app. Qed.

Lemma revokesOf_app tr tr' : revokesOf (tr ++ tr') = revokesOf tr ++ revokesOf tr'.
Proof. apply flat_map_app. Qed.

Lemma yieldsOf_waitEvents wait : yieldsOf (waitEvents wait) = [].
Proof. now destruct wait. Qed.

Lemma revokesOf_waitEvents wait : revokesOf (waitEvents wait) = [].
Proof. now destruct wait. Qed.

(** What [revokeOldest] does to a queue of at most two URLs. *)
Lemma revokeOldest_cases (previousURLs : list string) :
  (List.length previousURLs <= 2)%nat ->
  (exists oldest current,
      previousURLs = [oldest; current]
      /\ revokeOldest previousURLs = ([EvRevoked oldest], [current]))
  \/ ((List.length previousURLs <= 1)%nat
      /\ revokeOldest previousURLs = ([], previousURLs)).
Proof.
  intros Hlen.
  destruct previousURLs as [|a [|b [|c l]]]; simpl in Hlen.
  - right. split; [simpl; lia | reflexivity].
  - right. split; [simpl; lia | reflexivity].
  - left. exists a, b. split; reflexivity.
  - lia.
Qed.

(** A list that ends in [x], split around an element [y]. *)
Lemma snoc_split {A : Type} (tr pre post : list A) (x y : A) :
  tr ++ [x] = pre ++ y :: post ->
  (post = [] /\ tr = pre /\ x = y)
  \/ (exists post', post = post' ++ [x] /\ tr = pre ++ y :: post').
Proof.
  intros Heq.
  destruct (exists_last (l := y :: post)) as (l' & z & Hl); [discriminate|].
  rewrite Hl, app_assoc in Heq. apply app_inj_tail in Heq as [Htr Hx].
  destruct post as [|p post].
  - left. destruct l' as [|a l']; simpl in Hl.
    + injection Hl as ->. rewrite app_nil_r in Htr. auto.
    + destruct l'; discriminate.
  - right.
    destruct (exists_last (l := p :: post)) as (post' & z' & Hpost); [discriminate|].
    exists post'. rewrite Hpost in Hl.
    change (y :: post' ++ [z']) with ((y :: post') ++ [z']) in Hl.
    apply app_inj_tail in Hl as [Hl' Hz]. subst l' z' x.
    split; [exact Hpost | exact Htr].
Qed.

Lemma revoked_quiet (previousURLs : list string) :
  Forall quiet (fst (revokeOldest previousURLs)).
Proof.
  unfold revokeOldest.
  destruct (1 <? List.length previousURLs)%nat; [|constructor].
  destruct previousURLs; repeat constructor.
Qed.

Lemma vend_trace env st url :
  exists between,
    trace (vend env st url) = trace st ++ EvMaterialized url :: between ++ [EvYielded url]
    /\ between = fst (revokeOldest (previousURLs st))
                 ++ waitEvents (pacingWait (lastYieldTime st) (nowAfterMaterialize env))
    /\ Forall quiet between.
Proof.
  eexists. split; [|split; [reflexivity|]].
  - simpl. now rewrite <- app_assoc.
  - apply Forall_app. split; [apply revoked_quiet|].
    destruct (pacingWait _ _); repeat constructor.
Qed.

Lemma strikesFrom_app n tr tr' :
  strikesFrom n (tr ++ tr') = strikesFrom (strikesFrom n tr) tr'.
Proof. apply fold_left_app. Qed.

Lemma strikesFrom_quiet n between : Forall quiet between -> strikesFrom n between = n.
Proof.
  intros Hq; revert n. induction Hq as [|ev between Hev _ IH]; intros n; [reflexivity|].
  destruct ev; try contradiction; apply IH.
Qed.

Lemma underThree_quiet n between : Forall quiet between -> underThree n between.
Proof.
  intros Hq. induction Hq as [|ev between Hev _ IH]; [exact I|].
  destruct ev; try contradiction; exact IH.
Qed.

Lemma underThree_app n tr tr' :
  underThree n (tr ++ tr') <-> underThree n tr /\ underThree (strikesFrom n tr) tr'.
Proof.
  revert n. induction tr as [|ev tr IH]; intros n.
  - simpl. tauto.
  - destruct ev; simpl; rewrite ?IH; try reflexivity.
    unfold strikesFrom at 2; simpl. fold (strikesFrom (S n) tr). tauto.
Qed.

Lemma underThree_bound n tr :
  underThree n tr -> (n < 3)%nat -> (strikesFrom n tr < 3)%nat.
Proof.
  revert n. induction tr as [|ev tr IH]; intros n Hu Hn; [exact Hn|].
  destruct ev; simpl in Hu; try (apply (IH n Hu Hn)).
  - apply (IH 0%nat Hu). lia.
  - destruct Hu as [Hlt Hu]. apply (IH (S n) Hu Hlt).
Qed.

Lemma strikesFrom_failed n tr e :
  strikesFrom n (tr ++ [EvFailed e]) = S (strikesFrom n tr).
Proof. now rewrite strikesFrom_app. Qed.

(** In a trace where no failure is the third in a row, the failures up to
    any failure number fewer than three. *)
Lemma underThree_split n pre e post :
  underThree n (pre ++ EvFailed e :: post) ->
  (strikesFrom n (pre ++ [EvFailed e]) < 3)%nat.
Proof.
  intros Hu. apply underThree_app in Hu as [_ [Hlt _]].
  now rewrite strikesFrom_failed.
Qed.

(** *** Passes and their attempts *)

Lemma attemptsOf_app F castData envs i before others :
  attemptsOf F castData envs i (before ++ others)
  = attemptsOf F castData envs i before
      ++ attemptsOf F castData envs (i + List.length before) others.
Proof.
  revert i. induction before as [|encryptedFile before IH]; intros i; simpl.
  - now rewrite Nat.add_0_r.
  - rewrite IH. now rewrite Nat.add_succ_comm.
Qed.

(** The loop over [before ++ others] is the loop over [others] from where the
    loop over [before] ends. *)
Lemma forLoop_app F castData envs before others :
  forall i st have st' have',
    forLoop F castData envs i st have before = Next st' have' ->
    forLoop F castData envs i st have (before ++ others)
    = forLoop F castData envs (i + List.length before) st' have' others.
Proof.
  induction before as [|encryptedFile before IH]; intros i st have st' have' Hrun;
    simpl in Hrun |- *.
  - injection Hrun as <- <-. now rewrite Nat.add_0_r.
  - destruct (loopBody F castData (envs i) st have encryptedFile) as [st1 have1|e st1];
      [|discriminate].
    rewrite (IH (S i) st1 have1 st' have' Hrun). now rewrite Nat.add_succ_comm.
Qed.

Lemma failuresOf_cons a attempts :
  failuresOf (a :: attempts)
  = ((match a with MaterializeFailed _ => 1 | _ => 0 end) + failuresOf attempts)%nat.
Proof. unfold failuresOf. simpl. now destruct a. Qed.

Lemma forLoop_fruitless F castData envs encryptedFiles :
  forall i st have,
    Forall fruitless (attemptsOf F castData envs i encryptedFiles) ->
    consecutiveFailures st
      + Z.of_nat (failuresOf (attemptsOf F castData envs i encryptedFiles)) < 3 ->
    exists st',
      forLoop F castData envs i st have encryptedFiles = Next st' have
      /\ previousURLs st' = previousURLs st
      /\ lastYieldTime st' = lastYieldTime st
      /\ consecutiveFailures st'
         = consecutiveFailures st
           + Z.of_nat (failuresOf (attemptsOf F castData envs i encryptedFiles))
      /\ exists evs, trace st' = trace st ++ evs /\ yieldsOf evs = [].
Proof.
  induction encryptedFiles as [|encryptedFile others IH]; intros i st have Hall Hfew.
  - exists st. simpl. repeat split; [unfold failuresOf; simpl; lia|].
    exists []. now rewrite app_nil_r.
  - cbn [attemptsOf] in Hall, Hfew |- *. cbn [forLoop]. unfold loopBody.
    inversion Hall as [|a atts Ha Hrest]; subst. rewrite failuresOf_cons in Hfew |- *.
    destruct (attempt F castData (envs i) encryptedFile) as [e|fileID|url|e];
      try contradiction.
    + destruct (IH (S i) (skipped st fileID) have Hrest) as (st' & Hrun & Hq & Ht & Hc & evs & Htr & Hy).
      { simpl. lia. }
      exists st'. split; [exact Hrun|]. split; [exact Hq|]. split; [exact Ht|]. split.
      * rewrite Hc. simpl. lia.
      * exists (EvSkipped fileID :: evs). split; [rewrite Htr; simpl; now rewrite <- app_assoc | exact Hy].
    + simpl in Ha. cbv zeta.
      change (consecutiveFailures (caught st e)) with (consecutiveFailures st + 1).
      assert (H3 : (consecutiveFailures st + 1 =? 3) = false) by (apply Z.eqb_neq; lia).
      rewrite H3, Ha.
      destruct (IH (S i) (caught st e) have Hrest) as (st' & Hrun & Hq & Ht & Hc & evs & Htr & Hy).
      { simpl. lia. }
      exists st'. split; [exact Hrun|]. split; [exact Hq|]. split; [exact Ht|]. split.
      * rewrite Hc. simpl. lia.
      * exists (EvFailed e :: evs). split; [rewrite Htr; simpl; now rewrite <- app_assoc | exact Hy].
Qed.

Lemma yieldedBetween_grown st st' evs :
  trace st' = trace st ++ evs -> yieldedBetween st st' = yieldsOf evs.
Proof.
  intros Htr. unfold yieldedBetween. rewrite Htr, yieldsOf_app.
  rewrite skipn_app, skipn_all, Nat.sub_diag. reflexivity.
Qed.

(** An iteration whose materialization fails. *)
Lemma loopBody_failed F castData env st have encryptedFile e :
  attempt F castData env encryptedFile = MaterializeFailed e ->
  (consecutiveFailures st = 2 ->
   loopBody F castData env st have encryptedFile = Raise e (caught st e))
  /\ (consecutiveFailures st <> 2 -> isUnauthorized e = false ->
      loopBody F castData env st have encryptedFile = Next (caught st e) have).
Proof.
  intros Hfail. unfold loopBody. rewrite Hfail. cbv zeta.
  change (consecutiveFailures (caught st e)) with (consecutiveFailures st + 1).
  split.
  - intros H2. rewrite H2. reflexivity.
  - intros H2 Hauth. rewrite Hauth.
    assert (H3 : (consecutiveFailures st + 1 =? 3) = false) by (apply Z.eqb_neq; lia).
    now rewrite H3.
Qed.

(** A failure that follows items of which none materialized and of which
    enough failed to bring the counter to 2. *)
Lemma forLoop_third_strike F castData envs i st have before encryptedFile others e :
  let attempts := attemptsOf F castData envs i before in
  Forall fruitless attempts ->
  consecutiveFailures st + Z.of_nat (failuresOf attempts) = 2 ->
  attempt F castData (envs (i + List.length before)%nat) encryptedFile
    = MaterializeFailed e ->
  exists st',
    forLoop F castData envs i st have (before ++ encryptedFile :: others) = Raise e st'
    /\ consecutiveFailures st' = 3
    /\ previousURLs st' = previousURLs st
    /\ exists evs, trace st' = trace st ++ evs /\ yieldsOf evs = [].
Proof.
  intros attempts Hall Hfew Hfail.
  destruct (forLoop_fruitless F castData envs before i st have Hall)
    as (st1 & Hrun & Hq & _ & Hc & evs & Htr & Hy).
  { fold attempts. lia. }
  fold attempts in Hc.
  exists (caught st1 e).
  rewrite (forLoop_app F castData envs before (encryptedFile :: others) i st have st1 have Hrun).
  cbn [forLoop].
  destruct (loopBody_failed F castData (envs (i + List.length before)%nat) st1 have
              encryptedFile e Hfail) as [H3 _].
  rewrite H3 by lia.
  split; [reflexivity|]. split; [simpl; lia|]. split; [exact Hq|].
  exists (evs ++ [EvFailed e]). split.
  - simpl. rewrite Htr. now rewrite <- app_assoc.
  - rewrite yieldsOf_app, Hy. reflexivity.
Qed.

(** *** The failure counter (C2) *)

Lemma runningStrikes_preserved st have st' have' :
  runningStrikes st -> bodyCase (fun _ => True) st have (Next st' have') ->
  runningStrikes st'.
Proof.
  intros [Hc Hu] Hcase. unfold runningStrikes, counted, strikes in *.
  inversion Hcase as [ | fileID | env url _ | | | e Hn3 Hauth ]; subst; clear Hcase.
  - simpl. rewrite strikesFrom_app. split; [exact Hc|].
    apply underThree_app. split; [exact Hu | exact I].
  - destruct (vend_trace env st url) as (between & -> & _ & Hq).
    change (consecutiveFailures (vend env st url)) with 0.
    rewrite strikesFrom_app. split.
    + change (strikesFrom (strikesFrom 0 (trace st)) (EvMaterialized url :: between ++ [EvYielded url]))
        with (strikesFrom 0 (between ++ [EvYielded url])).
      rewrite strikesFrom_app, (strikesFrom_quiet 0 between Hq). reflexivity.
    + apply underThree_app. split; [exact Hu|].
      change (underThree 0 (between ++ [EvYielded url])).
      apply underThree_app. split; [now apply underThree_quiet | exact I].
  - simpl. rewrite strikesFrom_failed. split; [lia|].
    apply underThree_app. split; [exact Hu|]. simpl.
    pose proof (underThree_bound 0 (trace st) Hu). lia.
Qed.

Lemma runningStrikes_escape st have e st' :
  runningStrikes st -> bodyCase (fun _ => True) st have (Raise e st') ->
  escapedStrikes e st'.
Proof.
  intros [Hc Hu] Hcase. unfold escapedStrikes, counted, strikes in *.
  inversion Hcase; subst; clear Hcase.
  - split; [exact Hc | now left].
  - simpl. rewrite strikesFrom_failed. split; [lia|]. right. now exists (trace st).
  - simpl. rewrite strikesFrom_failed. split; [lia|]. right. now exists (trace st).
Qed.

Lemma initialState_runningStrikes now : runningStrikes (initialState now).
Proof. split; [reflexivity | exact I]. Qed.

(** C2. An iteration whose materialization succeeds goes on with the counter
    at 0. An iteration whose materialization fails adds 1 to the counter;
    when that makes 3 the iteration ends by rethrowing the error, and
    otherwise (the error not being an authorization failure) the loop goes
    on to the next item. So when a materialization fails after items of
    which none materialized and of which enough failed to bring the counter
    to 2 (files that are not eligible do not count and do not reset it),
    the [for] loop stops at that item by rethrowing its error, whatever
    items follow, and the generator ends with that error, the counter at 3
    and nothing yielded on the way. In every run of the generator, the
    counter is the number of failed materializations since the last
    successful one, and a failed materialization that is the third in a row
    is the last event of the run, which ends by rethrowing its error. *)
Theorem three_strikes F world castData :
  let r := imageURLGenerator F world castData in
  (forall env st have encryptedFile url,
      attempt F castData env encryptedFile = Materialized url ->
      exists st', loopBody F castData env st have encryptedFile = Next st' true
                  /\ consecutiveFailures st' = 0)
  /\ (forall env st have encryptedFile e,
        attempt F castData env encryptedFile = MaterializeFailed e ->
        exists st',
          consecutiveFailures st' = consecutiveFailures st + 1
          /\ (consecutiveFailures st = 2 ->
              loopBody F castData env st have encryptedFile = Raise e st')
          /\ (consecutiveFailures st <> 2 -> isUnauthorized e = false ->
              loopBody F castData env st have encryptedFile = Next st' have))
  /\ (forall envs i st have before encryptedFile others e,
        let attempts := attemptsOf F castData envs i before in
        Forall fruitless attempts ->
        consecutiveFailures st + Z.of_nat (failuresOf attempts) = 2 ->
        attempt F castData (envs (i + List.length before)%nat) encryptedFile
          = MaterializeFailed e ->
        exists st',
          forLoop F castData envs i st have (before ++ encryptedFile :: others)
          = Raise e st'
          /\ consecutiveFailures st' = 3
          /\ yieldedBetween st st' = [])
  /\ (forall p later st files before encryptedFile others e,
        let attempts := attemptsOf F castData (envOf p) 0 before in
        completion (getEncryptedCollectionFiles (responses p) (castToken castData))
          = Some (Returned files) ->
        shuffled p files = before ++ encryptedFile :: others ->
        Forall fruitless attempts ->
        consecutiveFailures st + Z.of_nat (failuresOf attempts) = 2 ->
        attempt F castData (envOf p (List.length before)) encryptedFile
          = MaterializeFailed e ->
        let r' := outerLoop F castData (p :: later) st in
        outcome r' = Threw e
        /\ consecutiveFailures (final r') = 3
        /\ yieldsOf (trace (final r')) = yieldsOf (trace st))
  /\ consecutiveFailures (final r) = Z.of_nat (strikes (trace (final r)))
  /\ (forall pre e post,
        trace (final r) = pre ++ EvFailed e :: post ->
        strikes (pre ++ [EvFailed e]) = 3%nat ->
        post = [] /\ outcome r = Threw e).
Proof.
  intros r.
  pose proof (outerLoop_invariant (fun _ => True) runningStrikes escapedStrikes
                runningStrikes_preserved runningStrikes_escape F castData
                (passes world) (every_env_ok _) (initialState (startTime world))
                (initialState_runningStrikes _)) as Hend.
  fold (imageURLGenerator F world castData) in Hend. fold r in Hend.
  unfold holdsAtEnd in Hend.
  assert (Hcounted : counted (final r)).
  { destruct (outcome r); apply Hend. }
  split; [|split; [|split; [|split; [|split; [symmetry; exact Hcounted|]]]]].
  - intros env st have encryptedFile url Hok.
    exists (vend env st url). unfold loopBody. rewrite Hok. split; reflexivity.
  - intros env st have encryptedFile e Hfail.
    exists (caught st e). split; [reflexivity|].
    exact (loopBody_failed F castData env st have encryptedFile e Hfail).
  - intros envs i st have before encryptedFile others e attempts Hall Hfew Hfail.
    destruct (forLoop_third_strike F castData envs i st have before encryptedFile others e
                Hall Hfew Hfail) as (st' & Hrun & Hc & _ & evs & Htr & Hy).
    exists st'. split; [exact Hrun|]. split; [exact Hc|].
    now rewrite (yieldedBetween_grown st st' evs Htr).
  - intros p later st files before encryptedFile others e attempts Hfetch Hshuffle
      Hall Hfew Hfail r'.
    destruct (forLoop_third_strike F castData (envOf p) 0%nat st false before
                encryptedFile others e Hall Hfew Hfail)
      as (st' & Hrun & Hc & _ & evs & Htr & Hy).
    unfold r'. cbn [outerLoop]. rewrite Hfetch, Hshuffle, Hrun. cbn [outcome final].
    split; [reflexivity|]. split; [exact Hc|].
    rewrite Htr, yieldsOf_app, Hy. now rewrite app_nil_r.
  - intros pre e post Htr H3.
    assert (Hsafe : underThree 0 (trace (final r)) -> False).
    { intros Hu. rewrite Htr in Hu. apply underThree_split in Hu.
      unfold strikes in H3. lia. }
    destruct (outcome r) as [|e0|]; try (exfalso; apply Hsafe, Hend).
    destruct Hend as [_ [Hu|(tr & Hlast & Hu)]]; [contradiction|].
    rewrite Htr in Hlast. symmetry in Hlast.
    apply snoc_split in Hlast as [(Hpost & _ & He)|(post' & _ & Htr')].
    + injection He as ->. now split.
    + rewrite Htr' in Hu. apply underThree_split in Hu. unfold strikes in H3. lia.
Qed.

(** The first three downloads of a run fail, a video standing between the
    second and the third: the third error is rethrown before anything was
    shown, and the image after it is never attempted. *)
Lemma three_strikes_witness :
  let records := [sampleImage (-1); sampleImage (-2);
                  sampleRecord 5 "clip.mp4" "video" 900 5 false None;
                  sampleImage (-3); sampleImage 4] in
  let world := {| startTime := 0; passes := [samplePass records] |} in
  let r := imageURLGenerator sampleFormats world sampleCastData in
  outcome r = Threw (Error "Network Error")
  /\ consecutiveFailures (final r) = 3
  /\ yieldsOf (trace (final r)) = [].
Proof.
  intros records world r.
  assert (Hall : Forall fruitless
                   (attemptsOf sampleFormats sampleCastData (envOf (samplePass records)) 0
                      [sampleImage (-1); sampleImage (-2);
                       sampleRecord 5 "clip.mp4" "video" 900 5 false None]))
    by (repeat constructor).
  refine (proj1 (proj2 (proj2 (proj2 (three_strikes sampleFormats world sampleCastData))))
            (samplePass records) [] (initialState 0) records
            [sampleImage (-1); sampleImage (-2);
             sampleRecord 5 "clip.mp4" "video" 900 5 false None]
            (sampleImage (-3)) [sampleImage 4] (Error "Network Error")
            eq_refl eq_refl Hall _ eq_refl).
  vm_compute. reflexivity.
Defined.

(** Three downloads in a row fail after one slide was shown: the third
    error is rethrown, and the fifth file is never attempted. *)
Example three_strikes_after_a_slide :
  let world := {| startTime := 0;
                  passes := [samplePass [sampleImage 1; sampleImage (-2); sampleImage (-3);
                                         sampleImage (-4); sampleImage 5]] |} in
  let r := imageURLGenerator sampleFormats world sampleCastData in
  outcome r = Threw (Error "Network Error")
  /\ yieldsOf (trace (final r)) = ["blob:file/1"]
  /\ consecutiveFailures (final r) = 3.
Proof. repeat split. Qed.

(** Two downloads fail and the third succeeds: the counter reads 0 after
    the third item, not 2. *)
Example counter_reset_after_success :
  let world := {| startTime := 0;
                  passes := [samplePass [sampleImage (-1); sampleImage (-2); sampleImage 3]] |} in
  let r := imageURLGenerator sampleFormats world sampleCastData in
  consecutiveFailures (final r) = 0
  /\ trace (final r) = [EvFailed (Error "Network Error"); EvFailed (Error "Network Error");
                        EvMaterialized "blob:file/3"; EvYielded "blob:file/3"]
  /\ outcome r = Suspended.
Proof. repeat split. Qed.

(** *** Authorization failures (C3) *)

Lemma noneUnauthorized_app tr tr' :
  noneUnauthorized tr -> noneUnauthorized tr' -> noneUnauthorized (tr ++ tr').
Proof.
  intros H H' e Hin. apply in_app_or in Hin as [Hin|Hin]; [now apply H | now apply H'].
Qed.

Lemma noneUnauthorized_quiet between : Forall quiet between -> noneUnauthorized between.
Proof.
  intros Hq e Hin. rewrite Forall_forall in Hq. destruct (Hq _ Hin).
Qed.

Lemma runningAuthorized_preserved st have st' have' :
  runningAuthorized st -> bodyCase (fun _ => True) st have (Next st' have') ->
  runningAuthorized st'.
Proof.
  unfold runningAuthorized. intros Hinv Hcase.
  inversion Hcase as [ | fileID | env url _ | | | e Hn3 Hauth ]; subst; clear Hcase.
  - simpl. apply noneUnauthorized_app; [exact Hinv|].
    intros e [He|[]]; discriminate.
  - destruct (vend_trace env st url) as (between & -> & _ & Hq).
    apply noneUnauthorized_app; [exact Hinv|].
    intros e [He|Hin]; [discriminate|].
    apply in_app_or in Hin as [Hin|[He|[]]]; [|discriminate].
    exact (noneUnauthorized_quiet between Hq e Hin).
  - simpl. apply noneUnauthorized_app; [exact Hinv|].
    intros e' [He|[]]. now injection He as <-.
Qed.

Lemma runningAuthorized_escape st have e st' :
  runningAuthorized st -> bodyCase (fun _ => True) st have (Raise e st') ->
  escapedAuthorized e st'.
Proof.
  unfold runningAuthorized, escapedAuthorized. intros Hinv Hcase.
  inversion Hcase; subst; clear Hcase.
  - now left.
  - right. now exists (trace st).
  - right. now exists (trace st).
Qed.

(** C3. Whatever the counter reads, an iteration whose materialization fails
    with an [ApiError] of status 401 ends by rethrowing that error: the
    [for] loop stops there, whatever items follow. In every run, a failure
    with such an error is the last event of the run, and the run ends by
    rethrowing it. *)
Theorem unauthorized_terminates F world castData :
  let r := imageURLGenerator F world castData in
  (forall envOf i st have encryptedFile others e,
      attempt F castData (envOf i) encryptedFile = MaterializeFailed e ->
      isUnauthorized e = true ->
      forLoop F castData envOf i st have (encryptedFile :: others)
      = Raise e (caught st e))
  /\ (forall pre e post,
        trace (final r) = pre ++ EvFailed e :: post ->
        isUnauthorized e = true ->
        post = [] /\ outcome r = Threw e).
Proof.
  intros r. split.
  - intros envOf i st have encryptedFile others e Hfail Hauth.
    simpl. unfold loopBody. rewrite Hfail. cbv zeta.
    rewrite Hauth. now destruct (consecutiveFailures (caught st e) =? 3).
  - pose proof (outerLoop_invariant (fun _ => True) runningAuthorized escapedAuthorized
                  runningAuthorized_preserved runningAuthorized_escape F castData
                  (passes world) (every_env_ok _) (initialState (startTime world))) as Hend.
    fold (imageURLGenerator F world castData) in Hend. fold r in Hend.
    unfold holdsAtEnd in Hend.
    intros pre e post Htr Hauth.
    assert (Hsafe : noneUnauthorized (trace (final r)) -> False).
    { intros Hnone. rewrite Htr in Hnone.
      rewrite (Hnone e) in Hauth; [discriminate|].
      apply in_or_app. right. now left. }
    assert (Hinit : runningAuthorized (initialState (startTime world)))
      by (intros e' []).
    specialize (Hend Hinit).
    destruct (outcome r) as [|e0|]; try (exfalso; apply Hsafe, Hend).
    destruct Hend as [Hnone|(tr & Hlast & Hnone)]; [contradiction|].
    rewrite Htr in Hlast. symmetry in Hlast.
    apply snoc_split in Hlast as [(Hpost & _ & He)|(post' & _ & Htr')].
    + injection He as ->. now split.
    + rewrite (Hnone e) in Hauth; [discriminate|].
      rewrite Htr'. apply in_or_app. right. now left.
Qed.

(** The server refuses the second file while the counter reads 0: the run
    ends with that error, and the third file is never attempted. *)
Lemma unauthorized_terminates_witness :
  let world := {| startTime := 0;
                  passes := [samplePass [sampleImage 1; sampleImage 401; sampleImage 3]] |} in
  let r := imageURLGenerator sampleFormats world sampleCastData in
  outcome r = Threw (ApiError 401 "Unauthorized")
  /\ yieldsOf (trace (final r)) = ["blob:file/1"]
  /\ consecutiveFailures (final r) = 1.
Proof.
  intros world r. split; [|split; reflexivity].
  apply (proj2 (unauthorized_terminates sampleFormats world sampleCastData)
           [EvMaterialized "blob:file/1"; EvYielded "blob:file/1"]
           (ApiError 401 "Unauthorized") []); reflexivity.
Defined.

(** *** Decryption failures (C1) *)

Lemma yieldedBetween_same st : yieldedBetween st st = [].
Proof. unfold yieldedBetween. apply skipn_all. Qed.

(** C1 (as the code has it). The call to [decryptEnteFile] stands before the
    [try]: when it rejects, the error is not caught. The iteration ends by
    throwing that error with the state as it was (the counter is not
    incremented, nothing is logged), the [for] loop stops there whatever
    items follow, and the generator ends by throwing that error. *)
Theorem decryption_failure_escapes F castData env st have encryptedFile e :
  decryptEnteFile (getInstance env) encryptedFile (collectionKey castData) = Thrown e ->
  loopBody F castData env st have encryptedFile = Raise e st
  /\ (forall envs i others,
        envs i = env ->
        forLoop F castData envs i st have (encryptedFile :: others) = Raise e st)
  /\ (forall p later files others,
        envOf p 0%nat = env ->
        completion (getEncryptedCollectionFiles (responses p) (castToken castData))
          = Some (Returned files) ->
        shuffled p files = encryptedFile :: others ->
        outerLoop F castData (p :: later) st
        = {| outcome := Threw e; final := st;
             passLog := [{| yielded := []; passEnd := Aborted e |}] |}).
Proof.
  intros Hfail.
  assert (Hbody : loopBody F castData env st have encryptedFile = Raise e st).
  { unfold loopBody, attempt. now rewrite Hfail. }
  split; [exact Hbody|]. split.
  - intros envs i others Henv. simpl. now rewrite Henv, Hbody.
  - intros p later files others Henv Hfetch Hshuffle. simpl.
    rewrite Hfetch, Hshuffle. simpl. rewrite Henv.
    unfold loopBody, attempt. rewrite Hfail.
    now rewrite yieldedBetween_same.
Qed.

(** The first record of a pass does not decrypt: the run ends with that
    error before anything is shown. *)
Lemma decryption_failure_escapes_witness :
  let world := {| startTime := 0;
                  passes := [samplePass [corruptRecord 1; sampleImage 2]] |} in
  imageURLGenerator sampleFormats world sampleCastData
  = {| outcome := Threw (Error "could not decrypt the file key");
       final := initialState 0;
       passLog := [{| yielded := [];
                      passEnd := Aborted (Error "could not decrypt the file key") |}] |}.
Proof.
  intros world.
  apply (proj2 (proj2 (decryption_failure_escapes sampleFormats sampleCastData
                         (envOf (samplePass []) 0%nat) (initialState 0) false
                         (corruptRecord 1)
                         (Error "could not decrypt the file key") eq_refl))
           (samplePass [corruptRecord 1; sampleImage 2]) []
           [corruptRecord 1; sampleImage 2] [sampleImage 2]);
    reflexivity.
Defined.

(** C1 as stated fails: the first record of the pass does not decrypt while
    the counter reads 0. Were the failure counted and skipped, the run would
    go on to the second record, which materializes; instead the run has
    ended with the decryption error, nothing was attempted or yielded, and
    the counter still reads 0. *)
Lemma decryption_failure_not_skipped :
  let world := {| startTime := 0;
                  passes := [samplePass [corruptRecord 1; sampleImage 2]] |} in
  let r := imageURLGenerator sampleFormats world sampleCastData in
  attempt sampleFormats sampleCastData (sampleEnv 0 0) (sampleImage 2)
    = Materialized "blob:file/2"
  /\ outcome r = Threw (Error "could not decrypt the file key")
  /\ trace (final r) = []
  /\ consecutiveFailures (final r) = 0
  /\ consecutiveFailures (final r) <> 1.
Proof. repeat split. discriminate. Qed.

(** *** The playback window (C5) *)

Lemma vend_window env st url oldest current :
  previousURLs st = [oldest; current] ->
  previousURLs (vend env st url) = [current; url]
  /\ trace (vend env st url)
     = trace st ++ [EvMaterialized url; EvRevoked oldest]
         ++ waitEvents (pacingWait (lastYieldTime st) (nowAfterMaterialize env))
         ++ [EvYielded url].
Proof.
  intros Hq. unfold vend. rewrite Hq. simpl. split; reflexivity.
Qed.

(** The prefixes of [tr ++ evs] are those of [tr] and [tr] followed by a
    prefix of [evs]. *)
Lemma every_prefix_app (P : list Event -> Prop) tr evs :
  (forall n, P (firstn n tr)) ->
  (forall k, P (tr ++ firstn k evs)) ->
  forall n, P (firstn n (tr ++ evs)).
Proof.
  intros Htr Hevs n. rewrite firstn_app.
  destruct (Nat.le_gt_cases n (List.length tr)) as [Hle|Hgt].
  - replace (n - List.length tr)%nat with 0%nat by lia.
    simpl. rewrite app_nil_r. apply Htr.
  - rewrite firstn_all2 by lia. apply Hevs.
Qed.

Lemma outstanding_silent tr evs live :
  yieldsOf evs = [] -> revokesOf evs = [] ->
  outstanding tr live -> outstanding (tr ++ evs) live.
Proof.
  unfold outstanding. intros Hy Hr Hout.
  now rewrite yieldsOf_app, revokesOf_app, Hy, Hr, !app_nil_r.
Qed.

(** What a prefix of the events of [vend] has yielded and revoked. *)
Lemma vend_prefix url revoked wait k :
  revoked = [] \/ (exists oldest, revoked = [EvRevoked oldest]) ->
  let evs := firstn k ([EvMaterialized url] ++ revoked ++ waitEvents wait
                         ++ [EvYielded url]) in
  (yieldsOf evs = [] /\ revokesOf evs = [])
  \/ (yieldsOf evs = [] /\ revokesOf evs = revokesOf revoked)
  \/ (yieldsOf evs = [url] /\ revokesOf evs = revokesOf revoked).
Proof.
  intros [->|(oldest & ->)]; destruct wait as [ms|];
    destruct k as [|[|[|[|k]]]]; simpl; rewrite ?firstn_nil; simpl; tauto.
Qed.

Lemma revokeOldest_shape (previousURLs : list string) :
  fst (revokeOldest previousURLs) = []
  \/ (exists oldest, fst (revokeOldest previousURLs) = [EvRevoked oldest]).
Proof.
  unfold revokeOldest.
  destruct (1 <? List.length previousURLs)%nat; [|now left].
  destruct previousURLs as [|oldest others]; [now left | right; now exists oldest].
Qed.

Lemma windowed_silent st st' ev :
  windowed st ->
  previousURLs st' = previousURLs st ->
  trace st' = trace st ++ [ev] ->
  yieldsOf [ev] = [] -> revokesOf [ev] = [] ->
  windowed st'.
Proof.
  intros (Hout & Hlen & Hpre) Hq Htr Hy Hr. unfold windowed.
  rewrite Hq, Htr. split; [now apply outstanding_silent|]. split; [exact Hlen|].
  apply every_prefix_app; [exact Hpre|].
  intros k. exists (previousURLs st). split; [|exact Hlen].
  destruct k as [|k]; simpl; [now rewrite app_nil_r|].
  rewrite firstn_nil. now apply outstanding_silent.
Qed.

Lemma windowed_preserved st have st' have' :
  windowed st -> bodyCase (fun _ => True) st have (Next st' have') -> windowed st'.
Proof.
  intros Hw Hcase.
  inversion Hcase as [ | fileID | env url _ | | | e Hn3 Hauth ]; subst; clear Hcase.
  - now apply (windowed_silent st _ (EvSkipped fileID) Hw).
  - destruct Hw as (Hout & Hlen & Hpre). unfold windowed, outstanding in *.
    assert (Hlive : forall k,
               atMostTwoLive
                 (trace st ++ firstn k ([EvMaterialized url]
                                          ++ fst (revokeOldest (previousURLs st))
                                          ++ waitEvents (pacingWait (lastYieldTime st)
                                                           (nowAfterMaterialize env))
                                          ++ [EvYielded url]))).
    { intros k. unfold atMostTwoLive, outstanding.
      rewrite yieldsOf_app, revokesOf_app, Hout.
      destruct (vend_prefix url _ (pacingWait (lastYieldTime st) (nowAfterMaterialize env))
                  k (revokeOldest_shape (previousURLs st)))
        as [[-> ->]|[[-> ->]|[-> ->]]].
      - exists (previousURLs st). now rewrite !app_nil_r.
      - destruct (revokeOldest_cases (previousURLs st) Hlen)
          as [(oldest & current & Hq & Hrev)|(Hshort & Hrev)]; rewrite Hrev; simpl.
        + exists [current]. rewrite Hq, app_nil_r, <- app_assoc. split; [reflexivity|simpl; lia].
        + exists (previousURLs st). now rewrite !app_nil_r.
      - destruct (revokeOldest_cases (previousURLs st) Hlen)
          as [(oldest & current & Hq & Hrev)|(Hshort & Hrev)]; rewrite Hrev; simpl.
        + exists [current; url]. rewrite Hq, <- !app_assoc. split; [reflexivity|simpl; lia].
        + exists (previousURLs st ++ [url]).
          rewrite app_nil_r, <- app_assoc, length_app. split; [reflexivity|simpl; lia]. }
    split; [|split].
    + destruct (revokeOldest_cases (previousURLs st) Hlen)
        as [(oldest & current & Hq & Hrev)|(Hshort & Hrev)].
      * destruct (vend_window env st url oldest current Hq) as [-> ->].
        rewrite yieldsOf_app, revokesOf_app, Hout, Hq. simpl.
        rewrite yieldsOf_app, revokesOf_app, yieldsOf_waitEvents, revokesOf_waitEvents.
        simpl. now rewrite <- !app_assoc.
      * unfold vend. rewrite Hrev. simpl.
        rewrite yieldsOf_app, revokesOf_app, Hout. simpl.
        rewrite yieldsOf_app, revokesOf_app, yieldsOf_waitEvents, revokesOf_waitEvents.
        simpl. now rewrite app_nil_r, <- app_assoc.
    + destruct (revokeOldest_cases (previousURLs st) Hlen)
        as [(oldest & current & Hq & Hrev)|(Hshort & Hrev)];
        unfold vend; rewrite Hrev; simpl; [lia|].
      rewrite length_app. simpl. lia.
    + apply every_prefix_app; [exact Hpre | exact Hlive].
  - now apply (windowed_silent st _ (EvFailed e) Hw).
Qed.

Lemma windowed_escape st have e st' :
  windowed st -> bodyCase (fun _ => True) st have (Raise e st') -> windowed st'.
Proof.
  intros Hw Hcase.
  inversion Hcase; subst; clear Hcase;
    [exact Hw | now apply (windowed_silent st _ (EvFailed e) Hw)
              | now apply (windowed_silent st _ (EvFailed e) Hw)].
Qed.

Lemma initialState_windowed now : windowed (initialState now).
Proof.
  split; [reflexivity|]. split; [simpl; lia|].
  intros n. exists []. rewrite firstn_nil. split; [reflexivity | simpl; lia].
Qed.

(** C5. In every run, after every event of the run, the URLs yielded and not
    yet revoked number at most two, and the URLs are revoked in the order
    they were yielded; the generator's queue holds exactly the outstanding
    ones. When the queue holds two and a new URL is materialized, the older
    of the two is revoked before the new one is pushed and yielded, and the
    queue then holds the other one and the new one. *)
Theorem playback_window F world castData :
  let st := final (imageURLGenerator F world castData) in
  (forall n, exists live,
      yieldsOf (firstn n (trace st)) = revokesOf (firstn n (trace st)) ++ live
      /\ (List.length live <= 2)%nat)
  /\ yieldsOf (trace st) = revokesOf (trace st) ++ previousURLs st
  /\ (List.length (previousURLs st) <= 2)%nat
  /\ (forall env st0 url oldest current,
        previousURLs st0 = [oldest; current] ->
        previousURLs (vend env st0 url) = [current; url]
        /\ trace (vend env st0 url)
           = trace st0 ++ [EvMaterialized url; EvRevoked oldest]
               ++ waitEvents (pacingWait (lastYieldTime st0) (nowAfterMaterialize env))
               ++ [EvYielded url]).
Proof.
  intros st.
  pose proof (outerLoop_invariant (fun _ => True) windowed (fun _ => windowed)
                windowed_preserved windowed_escape F castData
                (passes world) (every_env_ok _) (initialState (startTime world))
                (initialState_windowed _)) as Hend.
  fold (imageURLGenerator F world castData) in Hend.
  assert (Hw : windowed st).
  { unfold holdsAtEnd in Hend. subst st.
    destruct (outcome (imageURLGenerator F world castData)); exact Hend. }
  destruct Hw as (Hout & Hlen & Hpre).
  split; [exact Hpre|]. split; [exact Hout|]. split; [exact Hlen|].
  intros env st0 url oldest current. apply vend_window.
Qed.

(** Four slides: the first two URLs have been revoked, in that order, and
    the last two are in the queue. *)
Example playback_window_of_four :
  let world := {| startTime := 0;
                  passes := [samplePass [sampleImage 1; sampleImage 2;
                                         sampleImage 3; sampleImage 4]] |} in
  let st := final (imageURLGenerator sampleFormats world sampleCastData) in
  previousURLs st = ["blob:file/3"; "blob:file/4"]
  /\ revokesOf (trace st) = ["blob:file/1"; "blob:file/2"]
  /\ yieldsOf (trace st) = ["blob:file/1"; "blob:file/2"; "blob:file/3"; "blob:file/4"].
Proof. repeat split. Qed.

(** *** Termination (C4) *)

(** What an iteration that goes on adds to the trace, and what it does to
    [haveEligibleFiles]. *)
Lemma body_grows st have st' have' :
  bodyCase (fun _ => True) st have (Next st' have') ->
  exists evs, trace st' = trace st ++ evs
              /\ (have' = true <-> have = true \/ yieldsOf evs <> []).
Proof.
  intros Hcase.
  inversion Hcase as [ | fileID | env url _ | | | e Hn3 Hauth ]; subst; clear Hcase.
  - exists [EvSkipped fileID]. split; [reflexivity|]. simpl. intuition congruence.
  - destruct (vend_trace env st url) as (between & Htr & _ & _).
    eexists. split; [exact Htr|].
    split; [intros _; right | reflexivity].
    change (EvMaterialized url :: between ++ [EvYielded url])
      with ([EvMaterialized url] ++ between ++ [EvYielded url]).
    rewrite !yieldsOf_app. simpl. intros Hnil.
    apply app_eq_nil in Hnil as [_ Hnil]. discriminate.
  - exists [EvFailed e]. split; [reflexivity|]. simpl. intuition congruence.
Qed.

Lemma forLoop_grows F castData envs encryptedFiles :
  forall i st have st' have',
    forLoop F castData envs i st have encryptedFiles = Next st' have' ->
    exists evs, trace st' = trace st ++ evs
                /\ (have' = true <-> have = true \/ yieldsOf evs <> []).
Proof.
  induction encryptedFiles as [|encryptedFile others IH]; intros i st have st' have' Hrun;
    simpl in Hrun.
  - injection Hrun as <- <-. exists []. rewrite app_nil_r. split; [reflexivity|].
    simpl. intuition congruence.
  - pose proof (loopBody_case (fun _ => True) F castData (envs i) st have encryptedFile I)
      as Hcase.
    destruct (loopBody F castData (envs i) st have encryptedFile) as [st1 have1|e st1];
      [|discriminate].
    destruct (body_grows st have st1 have1 Hcase) as (evs1 & Htr1 & Hhave1).
    destruct (IH (S i) st1 have1 st' have' Hrun) as (evs2 & Htr2 & Hhave2).
    exists (evs1 ++ evs2). split.
    + now rewrite Htr2, Htr1, app_assoc.
    + rewrite yieldsOf_app, Hhave2, Hhave1. split.
      * intros [[H|H]|H]; auto; right; intros Hnil;
          apply app_eq_nil in Hnil as [H1 H2]; contradiction.
      * intros [H|H]; auto.
        destruct (yieldsOf evs1) eqn:H1; [|left; right; discriminate].
        right. exact H.
Qed.

Lemma forLoop_raises_grown F castData envs encryptedFiles :
  forall i st have e st',
    forLoop F castData envs i st have encryptedFiles = Raise e st' ->
    exists evs, trace st' = trace st ++ evs.
Proof.
  induction encryptedFiles as [|encryptedFile others IH]; intros i st have e st' Hrun;
    simpl in Hrun; [discriminate|].
  pose proof (loopBody_case (fun _ => True) F castData (envs i) st have encryptedFile I)
    as Hcase.
  destruct (loopBody F castData (envs i) st have encryptedFile) as [st1 have1|e1 st1].
  - destruct (body_grows st have st1 have1 Hcase) as (evs1 & Htr1 & _).
    destruct (IH (S i) st1 have1 e st' Hrun) as (evs2 & Htr2).
    exists (evs1 ++ evs2). now rewrite Htr2, Htr1, app_assoc.
  - injection Hrun as <- <-.
    inversion Hcase; subst.
    + exists []. now rewrite app_nil_r.
    + now exists [EvFailed e1].
    + now exists [EvFailed e1].
Qed.

(** A pass in which some file materializes ends, if it ends, with
    [haveEligibleFiles] set. *)
Lemma forLoop_success F castData envs encryptedFiles :
  forall i st have st' have',
    forLoop F castData envs i st have encryptedFiles = Next st' have' ->
    (exists j encryptedFile url,
        nth_error encryptedFiles j = Some encryptedFile
        /\ attempt F castData (envs (i + j)%nat) encryptedFile = Materialized url) ->
    have' = true.
Proof.
  induction encryptedFiles as [|encryptedFile others IH];
    intros i st have st' have' Hrun (j & enc & url & Hnth & Hok).
  - destruct j; discriminate.
  - simpl in Hrun. destruct j as [|j]; simpl in Hnth.
    + injection Hnth as ->. rewrite Nat.add_0_r in Hok.
      unfold loopBody in Hrun. rewrite Hok in Hrun.
      destruct (forLoop_grows _ _ _ _ _ _ _ _ _ Hrun) as (evs & _ & Hhave).
      apply Hhave. now left.
    + destruct (loopBody F castData (envs i) st have encryptedFile) as [st1 have1|e st1];
        [|discriminate].
      apply (IH (S i) st1 have1 st' have' Hrun).
      exists j, enc, url. split; [exact Hnth|].
      now rewrite Nat.add_succ_comm.
Qed.

(** The [for] loop on the attempts of a pass: it runs to its end exactly when
    no attempt ends the run, and then [haveEligibleFiles] is set when an
    attempt materialized. *)
Lemma forLoop_attempts F castData envs encryptedFiles :
  forall i st have,
    let attempts := attemptsOf F castData envs i encryptedFiles in
    if runsToEnd (consecutiveFailures st) attempts
    then exists st',
           forLoop F castData envs i st have encryptedFiles
           = Next st' (have || showsSlide attempts)
           /\ consecutiveFailures st' = counterAfter (consecutiveFailures st) attempts
    else exists e st', forLoop F castData envs i st have encryptedFiles = Raise e st'.
Proof.
  induction encryptedFiles as [|encryptedFile others IH]; intros i st have; cbv zeta.
  - simpl. exists st. now rewrite orb_false_r.
  - cbn [attemptsOf forLoop]. unfold loopBody.
    destruct (attempt F castData (envs i) encryptedFile) as [e|fileID|url|e];
      cbn [runsToEnd showsSlide existsb].
    + now exists e, st.
    + specialize (IH (S i) (skipped st fileID) have). cbv zeta in IH.
      change (consecutiveFailures (skipped st fileID)) with (consecutiveFailures st) in IH.
      exact IH.
    + specialize (IH (S i) (vend (envs i) st url) true). cbv zeta in IH.
      change (consecutiveFailures (vend (envs i) st url)) with 0 in IH.
      rewrite orb_true_r. exact IH.
    + cbv zeta.
      change (consecutiveFailures (caught st e)) with (consecutiveFailures st + 1).
      destruct (consecutiveFailures st + 1 =? 3); cbn [negb andb];
        [now exists e, (caught st e)|].
      destruct (isUnauthorized e); cbn [negb andb]; [now exists e, (caught st e)|].
      specialize (IH (S i) (caught st e) have). cbv zeta in IH.
      change (consecutiveFailures (caught st e)) with (consecutiveFailures st + 1) in IH.
      exact IH.
Qed.

Lemma outerLoop_returns F castData ps :
  forall st,
    outcome (outerLoop F castData ps st) = Done <->
    returnsAfter (consecutiveFailures st) (map (passAttempts F castData) ps) = true.
Proof.
  induction ps as [|p later IH]; intros st; cbn [outerLoop map returnsAfter].
  - split; discriminate.
  - unfold passAttempts at 1.
    destruct (completion (getEncryptedCollectionFiles (responses p) (castToken castData)))
      as [[files|e]|]; try (split; discriminate).
    pose proof (forLoop_attempts F castData (envOf p) (shuffled p files) 0%nat st false)
      as Hloop. cbv zeta in Hloop |- *.
    destruct (runsToEnd (consecutiveFailures st)
                (attemptsOf F castData (envOf p) 0 (shuffled p files))).
    + destruct Hloop as (st' & -> & Hc). cbn [orb andb].
      destruct (showsSlide (attemptsOf F castData (envOf p) 0 (shuffled p files)));
        cbn [negb orb outcome logged]; [|tauto].
      rewrite IH, Hc. reflexivity.
    + destruct Hloop as (e & st' & ->). split; discriminate.
Qed.

(** A pass that runs to its end leaves [haveEligibleFiles] as it was only
    when none of its files materialized. *)
Lemma forLoop_have F castData envs encryptedFiles :
  forall i st have st' have',
    forLoop F castData envs i st have encryptedFiles = Next st' have' ->
    (have' = have /\ Forall fruitless (attemptsOf F castData envs i encryptedFiles))
    \/ (have' = true
        /\ exists j encryptedFile url,
             nth_error encryptedFiles j = Some encryptedFile
             /\ attempt F castData (envs (i + j)%nat) encryptedFile = Materialized url).
Proof.
  induction encryptedFiles as [|encryptedFile others IH]; intros i st have st' have' Hrun.
  - simpl in Hrun. injection Hrun as <- <-. left. split; [reflexivity | constructor].
  - cbn [forLoop] in Hrun. cbn [attemptsOf]. unfold loopBody in Hrun.
    destruct (attempt F castData (envs i) encryptedFile) as [e|fileID|url|e] eqn:Hatt;
      [discriminate| | |].
    + destruct (IH _ _ _ _ _ Hrun) as [[Hh Hall]|[Hh (j & enc & url & Hnth & Hok)]].
      * left. split; [exact Hh|]. constructor; [exact I | exact Hall].
      * right. split; [exact Hh|]. exists (S j), enc, url. split; [exact Hnth|].
        now rewrite <- Nat.add_succ_comm.
    + right. split.
      * destruct (forLoop_grows _ _ _ _ _ _ _ _ _ Hrun) as (evs & _ & Hhave).
        apply Hhave. now left.
      * exists 0%nat, encryptedFile, url. split; [reflexivity|]. now rewrite Nat.add_0_r.
    + cbv zeta in Hrun.
      destruct (consecutiveFailures (caught st e) =? 3); [discriminate|].
      destruct (isUnauthorized e) eqn:Hauth; [discriminate|].
      destruct (IH _ _ _ _ _ Hrun) as [[Hh Hall]|[Hh (j & enc & url & Hnth & Hok)]].
      * left. split; [exact Hh|]. constructor; [exact Hauth | exact Hall].
      * right. split; [exact Hh|]. exists (S j), enc, url. split; [exact Hnth|].
        now rewrite <- Nat.add_succ_comm.
Qed.

(** The pass at which the generator returns, and the passes before it. *)
Lemma outerLoop_last_pass F castData ps :
  forall st,
    outcome (outerLoop F castData ps st) = Done ->
    exists before p later files,
      ps = before ++ p :: later
      /\ Forall (passHasSuccess F castData) before
      /\ completion (getEncryptedCollectionFiles (responses p) (castToken castData))
         = Some (Returned files)
      /\ Forall fruitless (attemptsOf F castData (envOf p) 0 (shuffled p files)).
Proof.
  induction ps as [|p later IH]; intros st; cbn [outerLoop]; [discriminate|].
  destruct (completion (getEncryptedCollectionFiles (responses p) (castToken castData)))
    as [[files|e]|] eqn:Hfetch; try discriminate.
  destruct (forLoop F castData (envOf p) 0 st false (shuffled p files))
    as [st' have'|e st'] eqn:Hloop; [|discriminate].
  destruct (forLoop_have _ _ _ _ _ _ _ _ _ Hloop)
    as [[-> Hall]|[-> (j & enc & url & Hnth & Hok)]]; cbn [negb].
  - intros _. exists [], p, later, files. repeat split; [constructor|exact Hfetch|exact Hall].
  - cbn [outcome logged]. intros Hdone.
    destruct (IH st' Hdone) as (before & p' & later' & files' & -> & Hbefore & Hf & Hall).
    exists (p :: before), p', later', files'. split; [reflexivity|].
    split; [|split; assumption].
    constructor; [|exact Hbefore]. now exists files, j, enc, url.
Qed.

Lemma outerLoop_done F castData ps :
  forall st,
    outcome (outerLoop F castData ps st) = Done <->
    exists l, In l (passLog (outerLoop F castData ps st))
              /\ passEnd l = Completed /\ yielded l = [].
Proof.
  induction ps as [|p later IH]; intros st; simpl.
  - split; [discriminate | intros (l & [] & _)].
  - destruct (completion (getEncryptedCollectionFiles (responses p) (castToken castData)))
      as [[files|e]|]; simpl.
    + destruct (forLoop F castData (envOf p) 0 st false (shuffled p files))
        as [st' have'|e st'] eqn:Hloop; simpl.
      * destruct (forLoop_grows _ _ _ _ _ _ _ _ _ Hloop) as (evs & Htr & Hhave).
        rewrite (yieldedBetween_grown st st' evs Htr).
        destruct have'; simpl.
        -- rewrite IH. split.
           ++ intros (l & Hin & Hl). exists l. split; [now right | exact Hl].
           ++ intros (l & [<-|Hin] & Hend & Hnone); [|now exists l].
              simpl in Hnone. destruct Hhave as [[H|H] _]; [reflexivity|discriminate|contradiction].
        -- split; [intros _ | reflexivity].
           eexists. split; [now left|]. split; [reflexivity|]. simpl.
           destruct (yieldsOf evs) eqn:Hy; [reflexivity|].
           destruct Hhave as [_ H]. discriminate H. right. discriminate.
      * split; [discriminate|]. intros (l & [<-|[]] & Hend & _). discriminate.
    + split; [discriminate|]. intros (l & [<-|[]] & Hend & _). discriminate.
    + split; [discriminate|]. intros (l & [<-|[]] & Hend & _). discriminate.
Qed.

Lemma outerLoop_repeats F castData ps :
  Forall (passHasSuccess F castData) ps ->
  forall st,
    let r := outerLoop F castData ps st in
    outcome r <> Done
    /\ ((forall e, outcome r <> Threw e) ->
        outcome r = Suspended
        /\ map passEnd (passLog r) = map (fun _ => Completed) ps).
Proof.
  intros Hall. induction Hall as [|p later Hp _ IH]; intros st; simpl.
  - split; [discriminate | now split].
  - destruct Hp as (files & j & enc & url & Hfetch & Hnth & Hok).
    rewrite Hfetch.
    destruct (forLoop F castData (envOf p) 0 st false (shuffled p files))
      as [st' have'|e st'] eqn:Hloop; simpl.
    + rewrite (forLoop_success F castData (envOf p) (shuffled p files) 0 st false st' have'
                 Hloop); [|now exists j, enc, url].
      simpl. destruct (IH st') as [Hnot Hgo].
      split; [exact Hnot|].
      intros Hno. destruct (Hgo Hno) as [Hs Hlog]. split; [exact Hs|]. now rewrite Hlog.
    + split; [discriminate|]. intros Hno. now destruct (Hno e).
Qed.

(** C4 (as the code has it). The generator returns exactly when some pass is
    fetched and runs to its end without any of its files materializing,
    every pass before it having been fetched and run to its end with a
    file that materialized: what the passes come to is read off the answers
    of the outside world, pass by pass. So the pass at which the generator
    returns has only files that are not eligible or that failed without
    ending the run, and every pass before it has a file that materialized;
    a pass reached with the counter at [c], all of whose files are such and
    fewer than [3 - c] of them failing, makes the generator return; and a
    pass in which an attempt ends the run makes the generator throw, not
    return, whether or not it has shown a slide. In the log of the run: the
    generator returns exactly when some pass that it ran to its end yielded
    nothing. When every pass has a file that materializes, the generator
    never returns: it ends only by an error that is thrown, and as long as
    none is, it runs every pass to its end and goes on to fetch again. *)
Theorem done_iff_empty_pass F world castData :
  let r := imageURLGenerator F world castData in
  (outcome r = Done <->
   returnsAfter 0 (map (passAttempts F castData) (passes world)) = true)
  /\ (outcome r = Done ->
      exists before p later files,
        passes world = before ++ p :: later
        /\ Forall (passHasSuccess F castData) before
        /\ completion (getEncryptedCollectionFiles (responses p) (castToken castData))
           = Some (Returned files)
        /\ Forall fruitless (attemptsOf F castData (envOf p) 0 (shuffled p files)))
  /\ (forall p later st files,
        let attempts := attemptsOf F castData (envOf p) 0 (shuffled p files) in
        completion (getEncryptedCollectionFiles (responses p) (castToken castData))
          = Some (Returned files) ->
        (Forall fruitless attempts ->
         consecutiveFailures st + Z.of_nat (failuresOf attempts) < 3 ->
         outcome (outerLoop F castData (p :: later) st) = Done)
        /\ (runsToEnd (consecutiveFailures st) attempts = false ->
            exists e, outcome (outerLoop F castData (p :: later) st) = Threw e))
  /\ (outcome r = Done <->
      exists l, In l (passLog r) /\ passEnd l = Completed /\ yielded l = [])
  /\ (Forall (passHasSuccess F castData) (passes world) ->
      outcome r <> Done
      /\ ((forall e, outcome r <> Threw e) ->
          outcome r = Suspended
          /\ map passEnd (passLog r) = map (fun _ => Completed) (passes world))).
Proof.
  intros r.
  split; [exact (outerLoop_returns F castData (passes world)
                   (initialState (startTime world)))|].
  split; [exact (outerLoop_last_pass F castData (passes world)
                   (initialState (startTime world)))|].
  split; [|split].
  - intros p later st files attempts Hfetch. split.
    + intros Hall Hfew.
      destruct (forLoop_fruitless F castData (envOf p) (shuffled p files) 0%nat st false
                  Hall Hfew) as (st' & Hrun & _).
      cbn [outerLoop]. now rewrite Hfetch, Hrun.
    + intros Hcut.
      pose proof (forLoop_attempts F castData (envOf p) (shuffled p files) 0%nat st false)
        as Hloop. cbv zeta in Hloop. fold attempts in Hloop. rewrite Hcut in Hloop.
      destruct Hloop as (e & st' & Hrun). exists e.
      cbn [outerLoop]. now rewrite Hfetch, Hrun.
  - apply outerLoop_done.
  - intros Hall. apply (outerLoop_repeats F castData (passes world) Hall).
Qed.

(** A collection of a video and an image that is served during the first
    pass and cannot be downloaded during the second: the first pass shows
    the image, the second shows nothing, and the generator returns without
    fetching a third time. *)
Lemma done_iff_empty_pass_witness :
  let clip := sampleRecord 5 "clip.mp4" "video" 900 5 false None in
  let world := {| startTime := 0;
                  passes := [samplePass [clip; sampleImage 1];
                             samplePass [clip; sampleImage (-1)];
                             samplePass [clip; sampleImage 1]] |} in
  let r := imageURLGenerator sampleFormats world sampleCastData in
  returnsAfter 0 (map (passAttempts sampleFormats sampleCastData) (passes world)) = true
  /\ outcome r = Done
  /\ yieldsOf (trace (final r)) = ["blob:file/1"]
  /\ map passEnd (passLog r) = [Completed; Completed].
Proof.
  intros clip world r.
  assert (Hin : returnsAfter 0 (map (passAttempts sampleFormats sampleCastData)
                                  (passes world)) = true) by reflexivity.
  split; [exact Hin|].
  split; [exact (proj2 (proj1 (done_iff_empty_pass sampleFormats world sampleCastData)) Hin)|].
  split; reflexivity.
Defined.

(** A collection of one image and two videos, fetched three times: every
    pass shows the image, and the generator is about to fetch again. *)
Example loop_repeats_while_slides_are_shown :
  let records := [sampleRecord 5 "clip.mp4" "video" 900 5 false None;
                  sampleImage 1;
                  sampleRecord 6 "clip.mov" "video" 900 6 false None] in
  let world := {| startTime := 0;
                  passes := [samplePass records; samplePass records; samplePass records] |} in
  let r := imageURLGenerator sampleFormats world sampleCastData in
  Forall (passHasSuccess sampleFormats sampleCastData) (passes world)
  /\ outcome r = Suspended
  /\ map passEnd (passLog r) = [Completed; Completed; Completed]
  /\ yieldsOf (trace (final r)) = ["blob:file/1"; "blob:file/1"; "blob:file/1"].
Proof.
  intros records world r.
  assert (Hp : passHasSuccess sampleFormats sampleCastData (samplePass records)).
  { exists records, 1%nat, (sampleImage 1), "blob:file/1". repeat split. }
  split; [repeat constructor; exact Hp|]. repeat split.
Qed.

(** An empty collection, and one whose only file is a video: the first pass
    yields nothing and the generator returns. *)
Example done_on_empty_collection :
  outcome (imageURLGenerator sampleFormats
             {| startTime := 0; passes := [samplePass []; samplePass [sampleImage 1]] |}
             sampleCastData) = Done
  /\ outcome (imageURLGenerator sampleFormats
                {| startTime := 0;
                   passes := [samplePass [sampleRecord 5 "clip.mp4" "video" 900 5 false None]] |}
                sampleCastData) = Done.
Proof. split; reflexivity. Qed.

(** Five live files, two of them videos, one an image above the size limit
    and two JPEGs: each pass yields exactly the two JPEGs, and the generator
    goes on to the next pass. *)
Example two_of_five_each_pass :
  let records := [sampleRecord 5 "clip.mp4" "video" 900 5 false None;
                  sampleImage 1;
                  sampleRecord 7 "huge.jpg" "image" (200 * 1024 * 1024) 7 false None;
                  sampleRecord 6 "clip.mov" "video" 900 6 false None;
                  sampleImage 2] in
  let world := {| startTime := 0; passes := [samplePass records; samplePass records] |} in
  let r := imageURLGenerator sampleFormats world sampleCastData in
  passLog r = [ {| yielded := ["blob:file/1"; "blob:file/2"]; passEnd := Completed |};
                {| yielded := ["blob:file/1"; "blob:file/2"]; passEnd := Completed |} ]
  /\ outcome r = Suspended.
Proof. repeat split. Qed.

(** C4 as stated fails where an error ends a pass. In the first world the
    server refuses the only file: the pass has yielded nothing, yet the
    generator does not return, the run ends with the error. In the second
    world the first file of the pass is materialized and yielded, so every
    pass has a file that materializes; the server then refuses the second
    file, and the loop does not repeat: the run ends with the error. *)
Lemma done_iff_empty_pass_fails_on_error :
  let refused := {| startTime := 0; passes := [samplePass [sampleImage 401]] |} in
  let shownThenRefused :=
    {| startTime := 0; passes := [samplePass [sampleImage 1; sampleImage 401]] |} in
  let r1 := imageURLGenerator sampleFormats refused sampleCastData in
  let r2 := imageURLGenerator sampleFormats shownThenRefused sampleCastData in
  (passLog r1 = [ {| yielded := []; passEnd := Aborted (ApiError 401 "Unauthorized") |} ]
   /\ outcome r1 = Threw (ApiError 401 "Unauthorized")
   /\ outcome r1 <> Done)
  /\ (Forall (passHasSuccess sampleFormats sampleCastData) (passes shownThenRefused)
      /\ passLog r2 = [ {| yielded := ["blob:file/1"];
                           passEnd := Aborted (ApiError 401 "Unauthorized") |} ]
      /\ outcome r2 = Threw (ApiError 401 "Unauthorized")
      /\ outcome r2 <> Suspended).
Proof.
  intros refused shownThenRefused r1 r2.
  split; [repeat split; discriminate|].
  split; [|repeat split; discriminate].
  repeat constructor.
  exists [sampleImage 1; sampleImage 401], 0%nat, (sampleImage 1), "blob:file/1".
  repeat split.
Qed.

(** *** Pacing (C9) *)











End Scheduler.

(** * Further properties *)

(** ** Resizing and materializing *)

Module Materializing.

Lemma bind_returns {A B : Type} (c : result A) (k : A -> result B) (b : B) :
  bind c k = Returned b -> exists a, c = Returned a /\ k a = Returned b.
Proof.
  destruct c as [a|e]; simpl; intros H; [eauto | discriminate].
Qed.

Lemma needsResize_known env file' w0 h0 :
  isChromecast env = true -> knownDimensions file' = Some (w0, h0) ->
  needsResize env file' = (Z.max w0 h0 >? 1280) || (Z.min w0 h0 >? 720).
Proof.
  unfold needsResize, knownDimensions. intros -> Hdim. simpl.
  destruct (pubMagicMetadata file') as [p|]; [|discriminate].
  destruct (w (mm_data p)) as [w1|]; [|discriminate].
  destruct (h (mm_data p)) as [h1|]; [|discriminate].
  unfold falsyDimension.
  destruct (truthyNumber w1); [|discriminate].
  destruct (truthyNumber h1); [|discriminate].
  simpl in *. now injection Hdim as -> ->.
Qed.

Lemma needsResize_unknown env file' :
  isChromecast env = true -> knownDimensions file' = None -> needsResize env file' = true.
Proof.
  unfold needsResize, knownDimensions. intros -> Hdim. simpl.
  destruct (pubMagicMetadata file') as [p|]; [|reflexivity].
  destruct (w (mm_data p)) as [w1|]; [|reflexivity].
  destruct (h (mm_data p)) as [h1|]; [|now rewrite orb_true_r].
  unfold falsyDimension.
  destruct (truthyNumber w1); [|reflexivity].
  destruct (truthyNumber h1); [discriminate | reflexivity].
Qed.

(** X1. An image is left as it is exactly when the device is not a Chromecast,
    or when both of its dimensions are known (present and not 0) and it fits
    in 1280 by 720 lying or standing: the test does not depend on the
    orientation. On a Chromecast every image of unknown dimensions is
    resized. *)
Theorem needsResize_iff env file' :
  needsResize env file' = false <->
  isChromecast env = false
  \/ exists w0 h0,
       knownDimensions file' = Some (w0, h0)
       /\ ((w0 <= 1280 /\ h0 <= 720) \/ (w0 <= 720 /\ h0 <= 1280)).
Proof.
  destruct (isChromecast env) eqn:Hcc.
  - destruct (knownDimensions file') as [[w0 h0]|] eqn:Hdim.
    + rewrite (needsResize_known env file' w0 h0 Hcc Hdim).
      rewrite orb_false_iff, !Z.gtb_ltb, !Z.ltb_ge. split.
      * intros [Hmax Hmin]. right. exists w0, h0. split; [reflexivity|]. lia.
      * intros [H|(w1 & h1 & Heq & Hfit)]; [discriminate|].
        injection Heq as <- <-. lia.
    + rewrite (needsResize_unknown env file' Hcc Hdim). split; [discriminate|].
      intros [H|(w1 & h1 & Heq & _)]; discriminate.
  - unfold needsResize. rewrite Hcc. simpl. split; auto.
Qed.

(** X2. [downloadFile] returns only for an image or a live photo, whatever the
    server answers, and the blob it returns has no type; every file that
    [isFileEligible] accepts is an image or a live photo, so for the files
    the generator materializes the check in [downloadFile] never fires. *)
Theorem downloadFile_kind F env castToken file' shouldUseThumbnail :
  (isImageOrLivePhoto file' = false ->
     downloadFile env castToken file' shouldUseThumbnail
     = Thrown (Error "Can only cast images and live photos"))
  /\ (forall blob,
        downloadFile env castToken file' shouldUseThumbnail = Returned blob ->
        isImageOrLivePhoto file' = true /\ blob_type blob = "")
  /\ (isFileEligible F file' = true -> isImageOrLivePhoto file' = true).
Proof.
  split; [|split].
  - intros Hkind. unfold downloadFile. now rewrite Hkind.
  - intros blob. unfold downloadFile.
    destruct (isImageOrLivePhoto file'); simpl; [|discriminate].
    intros Hrun. split; [reflexivity|].
    apply bind_returns in Hrun as ([data|] & _ & Hrun); [|discriminate].
    apply bind_returns in Hrun as (worker & _ & Hrun).
    apply bind_returns in Hrun as (header & _ & Hrun).
    apply bind_returns in Hrun as (decrypted & _ & Hrun).
    now injection Hrun as <-.
  - unfold isFileEligible. now destruct (isImageOrLivePhoto file').
Qed.

Lemma lowerCased_nonempty s : s <> "" -> lowerCased s <> "".
Proof. destruct s; [congruence|discriminate]. Qed.

(** X3. Whenever [renderableImageBlob] returns a blob, a type that is not empty
    was sniffed from the bytes worked on, and the blob's type is what
    [new Blob] makes of the sniffed type: the sniffed type in lower case,
    which is not empty, when all its characters are in U+0020..U+007E, and
    the empty type otherwise. The HEIC test goes by the sniffed type as it
    is: when that is not [image/heic] or [image/heif] the blob holds the
    very bytes worked on, and when it is, the bytes the HEIC worker made of
    them. *)
Theorem renderableImageBlob_returns F env castToken file' returned :
  renderableImageBlob F env castToken file' = Returned returned ->
  exists fileName blob mimeType,
    detectMediaMIMEType env fileName blob = Returned (Some mimeType)
    /\ mimeType <> ""
    /\ blob_type returned = blobType mimeType
    /\ (allBlobTypeChars mimeType = true ->
        blob_type returned = lowerCased mimeType /\ blob_type returned <> "")
    /\ (allBlobTypeChars mimeType = false -> blob_type returned = "")
    /\ (isHEICMimeType mimeType = false -> blob_bytes returned = blob_bytes blob)
    /\ (isHEICMimeType mimeType = true ->
        exists jpeg, heicToJPEG env blob = Returned jpeg
                     /\ blob_bytes returned = blob_bytes jpeg).
Proof.
  unfold renderableImageBlob.
  destruct (nameAndExtension F (title (metadata file'))) as [name ext].
  intros Hrun.
  apply bind_returns in Hrun as (downloaded & _ & Hrun).
  apply bind_returns in Hrun as ([fileName blob] & _ & Hrun).
  apply bind_returns in Hrun as ([mimeType|] & Hsniff & Hrun); [|discriminate].
  destruct (truthyString mimeType) eqn:Htruthy; simpl in Hrun; [|discriminate].
  apply bind_returns in Hrun as (converted & Hconv & Hrun).
  injection Hrun as <-. unfold newTypedBlob; cbn [blob_type blob_bytes].
  assert (Hne : mimeType <> "").
  { intros ->. discriminate. }
  exists fileName, blob, mimeType.
  split; [exact Hsniff|]. split; [exact Hne|]. split; [reflexivity|].
  split; [|split].
  - intros Hall. unfold blobType. rewrite Hall.
    split; [reflexivity|]. now apply lowerCased_nonempty.
  - intros Hall. unfold blobType. now rewrite Hall.
  - destruct (isHEICMimeType mimeType); split; intros Hh; try discriminate.
    + now exists converted.
    + now injection Hconv as <-.
Qed.

(** A file that sniffs as [IMAGE/HEIC] in the sample world: the test for HEIC
    does not fire, so the bytes that were served come back as they are,
    under the type [image/heic]. *)
Lemma renderableImageBlob_returns_witness :
  let env := withSniffer (sampleEnv 0 0) (fun _ _ => Returned (Some "IMAGE/HEIC")) in
  let file' := sampleFile 4 "IMG_0004.heic" IMAGE 5000 10 in
  renderableImageBlob sampleFormats env "token" file'
  = Returned {| blob_bytes := list_byte_of_string "file/4"; blob_type := "image/heic" |}
  /\ exists fileName blob mimeType,
       detectMediaMIMEType env fileName blob = Returned (Some mimeType)
       /\ mimeType <> ""
       /\ "image/heic" = blobType mimeType
       /\ (allBlobTypeChars mimeType = true ->
           "image/heic" = lowerCased mimeType /\ "image/heic" <> "")
       /\ (allBlobTypeChars mimeType = false -> "image/heic" = "")
       /\ (isHEICMimeType mimeType = false ->
           list_byte_of_string "file/4" = blob_bytes blob)
       /\ (isHEICMimeType mimeType = true ->
           exists jpeg, heicToJPEG env blob = Returned jpeg
                        /\ list_byte_of_string "file/4" = blob_bytes jpeg).
Proof.
  split; [reflexivity|].
  exact (renderableImageBlob_returns sampleFormats
           (withSniffer (sampleEnv 0 0) (fun _ _ => Returned (Some "IMAGE/HEIC")))
           "token" (sampleFile 4 "IMG_0004.heic" IMAGE 5000 10)
           {| blob_bytes := list_byte_of_string "file/4"; blob_type := "image/heic" |}
           eq_refl).
Defined.

(** What [new Blob] makes of some types. *)
Example blobType_samples :
  blobType "image/jpeg" = "image/jpeg"
  /\ blobType "Image/JPEG" = "image/jpeg"
  /\ blobType (String (ascii_of_nat 233) "image/jpeg") = ""
  /\ blobType (String (ascii_of_nat 9) "image/jpeg") = "".
Proof. repeat split. Qed.

(** X4. When the bytes were downloaded (and split) but the sniffer finds no
    type, or an empty one, [renderableImageBlob] throws, and so does
    [createRenderableURL]: no blob is made of bytes of unknown type. *)
Theorem renderableImageBlob_unknown_type F env castToken file' downloaded fileName blob
    sniffed :
  let ext := snd (nameAndExtension F (title (metadata file'))) in
  let shouldUseThumbnail := isChromecast env && isHEICExtension F ext in
  downloadFile env castToken file' shouldUseThumbnail = Returned downloaded ->
  stillImage env file' shouldUseThumbnail (title (metadata file')) downloaded
    = Returned (fileName, blob) ->
  detectMediaMIMEType env fileName blob = Returned sniffed ->
  sniffed = None \/ sniffed = Some "" ->
  renderableImageBlob F env castToken file'
    = Thrown (Error "Could not detect MIME type for file")
  /\ createRenderableURL F env castToken file'
    = Thrown (Error "Could not detect MIME type for file").
Proof.
  intros ext shouldUseThumbnail Hdl Hstill Hsniff Hnone.
  assert (Hblob : renderableImageBlob F env castToken file'
                  = Thrown (Error "Could not detect MIME type for file")).
  { unfold renderableImageBlob. subst ext shouldUseThumbnail.
    destruct (nameAndExtension F (title (metadata file'))) as [name ext]; simpl in *.
    rewrite Hdl; simpl. rewrite Hstill; simpl. rewrite Hsniff; simpl.
    now destruct Hnone as [-> | ->]. }
  split; [exact Hblob|]. unfold createRenderableURL. now rewrite Hblob.
Qed.

(** A JPEG that the sniffer does not recognize is not materialized. *)
Lemma renderableImageBlob_unknown_type_witness :
  createRenderableURL sampleFormats blindEnv "token"
    (sampleFile 4 "IMG_0004.jpg" IMAGE 5000 10)
  = Thrown (Error "Could not detect MIME type for file").
Proof.
  exact (proj2 (renderableImageBlob_unknown_type sampleFormats blindEnv "token"
                  (sampleFile 4 "IMG_0004.jpg" IMAGE 5000 10)
                  (newBlob (list_byte_of_string "file/4")) "IMG_0004.jpg"
                  (newBlob (list_byte_of_string "file/4")) None
                  eq_refl eq_refl eq_refl (or_introl eq_refl))).
Defined.

(** X5. On a Chromecast, a file whose title has a HEIC extension is materialized
    from its thumbnail alone: the result is the same whatever the live photo
    decoder would do and whatever the URL of the full file is, so a live
    photo is not split and the full file is not asked for. *)
Theorem renderableImageBlob_thumbnail F env castToken file' decode fileURL :
  isChromecast env = true ->
  isHEICExtension F (snd (nameAndExtension F (title (metadata file')))) = true ->
  renderableImageBlob F (withDecoder env decode fileURL) castToken file'
  = renderableImageBlob F env castToken file'
  /\ renderableImageBlob F env castToken file'
    = bind (downloadFile env castToken file' true)
        (fun blob =>
           bind (detectMediaMIMEType env (title (metadata file')) blob)
             (fun sniffed =>
                match sniffed with
                | Some mimeType =>
                    if negb (truthyString mimeType)
                    then Thrown (Error "Could not detect MIME type for file")
                    else bind (if isHEICMimeType mimeType
                               then heicToJPEG env blob else Returned blob)
                           (fun converted =>
                              Returned {| blob_bytes := blob_bytes converted;
                                          blob_type := blobType mimeType |})
                | None => Thrown (Error "Could not detect MIME type for file")
                end)).
Proof.
  intros Hcc Hheic. unfold renderableImageBlob, stillImage.
  destruct (nameAndExtension F (title (metadata file'))) as [name ext]. simpl in *.
  rewrite Hcc, Hheic. simpl. split; [|reflexivity].
  unfold downloadFile. simpl. reflexivity.
Qed.

(** A live photo with a HEIC name on the sample Chromecast: the thumbnail is
    fetched, even with a decoder that always fails. *)
Lemma renderableImageBlob_thumbnail_witness :
  renderableImageBlob sampleFormats
    (withDecoder chromecastEnv (fun _ _ => Thrown (Error "not a live photo"))
       (fun _ => "unreachable"))
    "token" (sampleFile 4 "IMG_0004.heic" LIVE_PHOTO 5000 10)
  = Returned {| blob_bytes := list_byte_of_string "jpeg:thumbnail/4";
                blob_type := "image/heic" |}.
Proof.
  rewrite (proj1 (renderableImageBlob_thumbnail sampleFormats chromecastEnv "token"
                    (sampleFile 4 "IMG_0004.heic" LIVE_PHOTO 5000 10)
                    (fun _ _ => Thrown (Error "not a live photo"))
                    (fun _ => "unreachable") eq_refl eq_refl)).
  reflexivity.
Defined.

(** X6. Off a Chromecast nothing is resized: the URL is made for the very blob
    that [renderableImageBlob] returns, [createRenderableURL] fails exactly
    when [renderableImageBlob] does and with its error, and the canvas plays
    no part. *)
Theorem createRenderableURL_off_chromecast F env castToken file' canvas :
  isChromecast env = false ->
  createRenderableURL F (withCanvas env canvas) castToken file'
  = createRenderableURL F env castToken file'
  /\ (forall blob, renderableImageBlob F env castToken file' = Returned blob ->
        createRenderableURL F env castToken file' = Returned (createObjectURL env blob))
  /\ (forall e, renderableImageBlob F env castToken file' = Thrown e <->
        createRenderableURL F env castToken file' = Thrown e).
Proof.
  intros Hcc. unfold createRenderableURL, needsResize. simpl. rewrite Hcc. simpl.
  split; [reflexivity|]. split.
  - now intros blob ->.
  - intros e. destruct (renderableImageBlob F env castToken file'); simpl;
      split; intros H; congruence.
Qed.

(** In the sample world (not a Chromecast) a broken canvas does no harm. *)
Lemma createRenderableURL_off_chromecast_witness :
  createRenderableURL sampleFormats
    (withCanvas (sampleEnv 0 0) (fun _ => Thrown (Error "no canvas")))
    "token" (sampleFile 4 "IMG_0004.jpg" IMAGE 5000 10)
  = Returned "blob:file/4".
Proof.
  rewrite (proj1 (createRenderableURL_off_chromecast sampleFormats (sampleEnv 0 0) "token"
                    (sampleFile 4 "IMG_0004.jpg" IMAGE 5000 10)
                    (fun _ => Thrown (Error "no canvas")) eq_refl)).
  reflexivity.
Defined.

End Materializing.

(** ** More on the decryptor and the fetcher *)

Module Decrypting.

Lemma applyEdited_kind pub m :
  fileType (applyEditedName pub (applyEditedTime pub m)) = fileType m
  /\ modificationTime (applyEditedName pub (applyEditedTime pub m)) = modificationTime m.
Proof.
  destruct pub as [p|]; simpl; [|now split].
  destruct (editedTime (mm_data p)) as [t|], (editedName (mm_data p)) as [s|];
    try destruct (truthyNumber t); try destruct (truthyString s); now split.
Qed.

(** X7. A decrypted file keeps everything of its record that is not encrypted
    (id, size, update time, deletion flag, decryption headers), carries the
    decrypted file key, and has the kind and the modification time of the
    core metadata: no overlay changes the kind or the size, which the
    eligibility filter goes by. *)
Theorem decryptEnteFile_keeps getInstance encryptedFile collectionKey file' :
  decryptEnteFile getInstance encryptedFile collectionKey = Returned file' ->
  rest file' = enc_rest encryptedFile
  /\ exists worker core,
       getInstance = Returned worker
       /\ decryptB64 worker (encryptedKey encryptedFile)
            (keyDecryptionNonce encryptedFile) collectionKey = Returned (key file')
       /\ decryptMetadata worker (encryptedData (enc_metadata encryptedFile))
            (encryptedDataHeader (enc_metadata encryptedFile)) (key file') = Returned core
       /\ fileType (metadata file') = fileType core
       /\ modificationTime (metadata file') = modificationTime core
       /\ isImageOrLivePhoto file'
          = FILE_TYPE_eqb (fileType core) IMAGE || FILE_TYPE_eqb (fileType core) LIVE_PHOTO.
Proof.
  unfold decryptEnteFile. intros Hrun.
  apply Materializing.bind_returns in Hrun as (worker & Hw & Hrun).
  apply Materializing.bind_returns in Hrun as (fileKey & Hkey & Hrun).
  apply Materializing.bind_returns in Hrun as (core & Hcore & Hrun).
  apply Materializing.bind_returns in Hrun as (priv & _ & Hrun).
  apply Materializing.bind_returns in Hrun as (pub & _ & Hrun).
  injection Hrun as <-. simpl. split; [reflexivity|].
  exists worker, core. destruct (applyEdited_kind pub core) as [Hkind Hmod].
  repeat split; try assumption.
  unfold isImageOrLivePhoto. simpl. now rewrite Hkind.
Qed.

(** The sample record keeps its id and size through decryption. *)
Lemma decryptEnteFile_keeps_witness :
  rest (sampleFile 1 "a.jpg" IMAGE 5000 1) = enc_rest (sampleRecord 1 "a.jpg" "image" 5000 1 false None).
Proof.
  exact (proj1 (decryptEnteFile_keeps (Returned sampleWorker)
                  (sampleRecord 1 "a.jpg" "image" 5000 1 false None) "ck"
                  (sampleFile 1 "a.jpg" IMAGE 5000 1) eq_refl)).
Defined.

Lemma decryptOverlay_without {D : Type} (decrypt : string -> string -> string -> result D)
    m fileKey :
  withoutData m -> decryptOverlay decrypt m fileKey = Returned None.
Proof. intros [->|(m0 & -> & Hd)]; simpl; [reflexivity | now rewrite Hd]. Qed.

Lemma decryptOverlay_with {D : Type} (decrypt : string -> string -> string -> result D)
    m m0 fileKey :
  m = Some m0 -> emm_data m0 <> "" ->
  decryptOverlay decrypt m fileKey
  = bind (decrypt (emm_data m0) (emm_header m0) fileKey)
      (fun d => Returned (Some (decryptedAs m0 d))).
Proof.
  intros -> Hdata. simpl. now rewrite (Decryptor.truthyString_true _ Hdata).
Qed.

Lemma decryptOverlay_readable {D : Type} (decrypt : string -> string -> string -> result D)
    m fileKey :
  readableBy decrypt fileKey m -> exists o, decryptOverlay decrypt m fileKey = Returned o.
Proof.
  intros [Hnone|(m0 & d & -> & Hd)].
  - exists None. now apply decryptOverlay_without.
  - simpl. destruct (truthyString (emm_data m0)); [|now exists None].
    rewrite Hd. simpl. now eexists.
Qed.

(** X8. For a record whose key and core metadata decrypt, each overlay is
    treated by itself. An overlay that is absent, or whose data is empty,
    is not decrypted and leaves the file without that overlay, whatever the
    other overlay is; without a public overlay the metadata is the core
    metadata. An overlay with data is decrypted and comes back with its
    data replaced by what was decrypted, its other fields kept. An overlay
    with data must decrypt: when the private one does not, the record
    cannot be decrypted at all, though nothing of the private overlay is
    read by the module; and so it is with the public one, once the private
    one is read. When both overlays are absent, empty or readable the
    record decrypts. *)
Theorem decryptEnteFile_private_overlay worker encryptedFile collectionKey fileKey core :
  decryptB64 worker (encryptedKey encryptedFile) (keyDecryptionNonce encryptedFile)
    collectionKey = Returned fileKey ->
  decryptMetadata worker (encryptedData (enc_metadata encryptedFile))
    (encryptedDataHeader (enc_metadata encryptedFile)) fileKey = Returned core ->
  let privateOverlay := enc_magicMetadata encryptedFile in
  let publicOverlay := enc_pubMagicMetadata encryptedFile in
  let run := decryptEnteFile (Returned worker) encryptedFile collectionKey in
  (forall m e,
      privateOverlay = Some m -> emm_data m <> "" ->
      decryptMagicMetadata worker (emm_data m) (emm_header m) fileKey = Thrown e ->
      run = Thrown e)
  /\ (forall m e,
        publicOverlay = Some m -> emm_data m <> "" ->
        decryptPubMagicMetadata worker (emm_data m) (emm_header m) fileKey = Thrown e ->
        readableBy (decryptMagicMetadata worker) fileKey privateOverlay ->
        run = Thrown e)
  /\ (forall file',
        run = Returned file' ->
        (withoutData privateOverlay -> magicMetadata file' = None)
        /\ (forall m, privateOverlay = Some m -> emm_data m <> "" ->
              exists d,
                decryptMagicMetadata worker (emm_data m) (emm_header m) fileKey
                = Returned d
                /\ magicMetadata file' = Some (decryptedAs m d))
        /\ (withoutData publicOverlay ->
            pubMagicMetadata file' = None /\ metadata file' = core)
        /\ (forall m, publicOverlay = Some m -> emm_data m <> "" ->
              exists d,
                decryptPubMagicMetadata worker (emm_data m) (emm_header m) fileKey
                = Returned d
                /\ pubMagicMetadata file' = Some (decryptedAs m d)))
  /\ (readableBy (decryptMagicMetadata worker) fileKey privateOverlay ->
      readableBy (decryptPubMagicMetadata worker) fileKey publicOverlay ->
      exists file', run = Returned file')
  /\ (withoutData privateOverlay -> withoutData publicOverlay ->
      run = Returned {| rest := enc_rest encryptedFile; key := fileKey; metadata := core;
                        magicMetadata := None; pubMagicMetadata := None |}).
Proof.
  intros Hkey Hcore privateOverlay publicOverlay run.
  assert (Hrun : run
                 = bind (decryptOverlay (decryptMagicMetadata worker) privateOverlay fileKey)
                     (fun priv =>
                        bind (decryptOverlay (decryptPubMagicMetadata worker)
                                publicOverlay fileKey)
                          (fun pub =>
                             Returned
                               {| rest := enc_rest encryptedFile; key := fileKey;
                                  metadata := applyEditedName pub (applyEditedTime pub core);
                                  magicMetadata := priv; pubMagicMetadata := pub |}))).
  { unfold run, decryptEnteFile. simpl. rewrite Hkey; simpl. rewrite Hcore; simpl.
    reflexivity. }
  rewrite Hrun. clear Hrun.
  split; [|split; [|split; [|split]]].
  - intros m e Hm Hdata Hfail.
    rewrite (decryptOverlay_with _ _ m fileKey Hm Hdata), Hfail. reflexivity.
  - intros m e Hm Hdata Hfail Hpriv.
    destruct (decryptOverlay_readable _ _ fileKey Hpriv) as (priv & ->). simpl.
    rewrite (decryptOverlay_with _ _ m fileKey Hm Hdata), Hfail. reflexivity.
  - intros file' Hret.
    apply Materializing.bind_returns in Hret as (priv & Hpriv & Hret).
    apply Materializing.bind_returns in Hret as (pub & Hpub & Hret).
    injection Hret as <-. cbn [magicMetadata pubMagicMetadata metadata].
    split; [|split; [|split]].
    + intros Hnone. rewrite (decryptOverlay_without _ _ fileKey Hnone) in Hpriv.
      now injection Hpriv as <-.
    + intros m Hm Hdata. rewrite (decryptOverlay_with _ _ m fileKey Hm Hdata) in Hpriv.
      apply Materializing.bind_returns in Hpriv as (d & Hd & Hpriv).
      exists d. split; [exact Hd|]. now injection Hpriv as <-.
    + intros Hnone. rewrite (decryptOverlay_without _ _ fileKey Hnone) in Hpub.
      injection Hpub as <-. now split.
    + intros m Hm Hdata. rewrite (decryptOverlay_with _ _ m fileKey Hm Hdata) in Hpub.
      apply Materializing.bind_returns in Hpub as (d & Hd & Hpub).
      exists d. split; [exact Hd|]. now injection Hpub as <-.
  - intros Hpriv Hpub.
    destruct (decryptOverlay_readable _ _ fileKey Hpriv) as (priv & ->).
    destruct (decryptOverlay_readable _ _ fileKey Hpub) as (pub & ->).
    simpl. now eexists.
  - intros Hpriv Hpub.
    rewrite (decryptOverlay_without _ _ fileKey Hpriv),
      (decryptOverlay_without _ _ fileKey Hpub). reflexivity.
Qed.

(** Three records of the sample world, read by a worker that reads the
    private overlay. The first has a private overlay with data and a public
    one whose data is empty: it comes back hidden, without a public overlay
    and with its core metadata. The second has no private overlay and an
    edit in its public one: it comes back renamed and without a private
    overlay. The private overlay of the third does not decrypt: the record
    does not decrypt, though its public overlay would. *)
Lemma decryptEnteFile_private_overlay_witness :
  let core := {| title := "photo.jpg"; creationTime := 1000; modificationTime := 1000;
                 fileType := IMAGE |} in
  let overlay header := {| emm_version := 1; emm_count := 1; emm_data := "hidden";
                           emm_header := header |} in
  (exists file',
      decryptEnteFile (Returned pickyWorker) (overlaidRecord 1 (Some "hidden") (Some "")) "ck"
      = Returned file'
      /\ magicMetadata file'
         = Some (decryptedAs (overlay "mh") {| visibility := Some 2 |})
      /\ pubMagicMetadata file' = None
      /\ metadata file' = core)
  /\ (exists file',
        decryptEnteFile (Returned pickyWorker) (overlaidRecord 2 None (Some "edited")) "ck"
        = Returned file'
        /\ magicMetadata file' = None
        /\ title (metadata file') = "renamed.png")
  /\ decryptEnteFile (Returned pickyWorker)
       (overlaidRecord 3 (Some "garbled") (Some "edited")) "ck"
     = Thrown (Error "could not decrypt the overlay").
Proof.
  intros core overlay.
  pose proof (decryptEnteFile_private_overlay pickyWorker
                (overlaidRecord 1 (Some "hidden") (Some "")) "ck" "k" core
                eq_refl eq_refl) as (_ & _ & Hread1 & _).
  pose proof (decryptEnteFile_private_overlay pickyWorker
                (overlaidRecord 2 None (Some "edited")) "ck" "k" core
                eq_refl eq_refl) as (_ & _ & Hread2 & _).
  pose proof (decryptEnteFile_private_overlay pickyWorker
                (overlaidRecord 3 (Some "garbled") (Some "edited")) "ck" "k" core
                eq_refl eq_refl) as (Hfail3 & _).
  split; [|split].
  - eexists. split; [reflexivity|].
    destruct (Hread1 _ eq_refl) as (_ & Hpriv & Hpub & _).
    destruct (Hpriv (overlay "mh") eq_refl) as (d & Hd & Hm); [discriminate|].
    injection Hd as <-.
    destruct Hpub as [Hp Hc]; [right; now eexists|].
    split; [exact Hm|]. split; [exact Hp | exact Hc].
  - eexists. split; [reflexivity|].
    destruct (Hread2 _ eq_refl) as (Hpriv & _).
    split; [apply Hpriv; now left | reflexivity].
  - exact (Hfail3 {| emm_version := 1; emm_count := 1; emm_data := "garbled";
                     emm_header := "mh" |}
             (Error "could not decrypt the overlay") eq_refl
             ltac:(discriminate) eq_refl).
Defined.

End Decrypting.

Module Fetching.

Lemma fetchLoop_fails castToken before e later :
  Forall (fun p => hasMore p = true) before ->
  forall files since,
    let r := fetchLoop castToken (map Returned before ++ Thrown e :: later) files since in
    completion r = Some (Thrown e)
    /\ List.length (requests r) = S (List.length before).
Proof.
  intros Hmore. induction Hmore as [|p before Hp _ IH]; intros files since; simpl.
  - now split.
  - rewrite Hp. simpl.
    destruct (IH (files ++ liveFiles (diff p)) (maxUpdationTime (diff p) since)) as [Hc Hn].
    split; [exact Hc | now rewrite Hn].
Qed.

(** X9. When the request for a page fails, after any number of pages that
    signalled more, the fetcher fails with that error: the entries of the
    pages before are not returned, and no further request is sent. The
    generator then ends with that error at once, in whatever state it is:
    on the first pass or on a later one, and whatever the failure counter
    reads, a failed fetch is not counted and not retried. *)
Theorem fetch_failure_escapes F castData before e later p ps st :
  Forall (fun page => hasMore page = true) before ->
  responses p = map Returned before ++ Thrown e :: later ->
  let r := getEncryptedCollectionFiles (responses p) (castToken castData) in
  completion r = Some (Thrown e)
  /\ List.length (requests r) = S (List.length before)
  /\ outerLoop F castData (p :: ps) st
     = {| outcome := Threw e; final := st;
          passLog := [{| yielded := []; passEnd := Aborted e |}] |}.
Proof.
  intros Hmore Hresp r.
  destruct (fetchLoop_fails (castToken castData) before e later Hmore [] 0) as [Hc Hn].
  unfold r, getEncryptedCollectionFiles. rewrite Hresp.
  split; [exact Hc|]. split; [exact Hn|].
  simpl. unfold getEncryptedCollectionFiles. rewrite Hresp, Hc. reflexivity.
Qed.

(** The second page of the second pass cannot be fetched: the slide of the
    first pass has been shown, and the run ends with the network error. *)
Lemma fetch_failure_escapes_witness :
  let failing := {| responses := [Returned {| diff := [sampleImage 1]; hasMore := true |};
                                  Thrown (Error "Network Error")];
                    shuffled := fun files => files;
                    envOf := fun _ => sampleEnv 0 0 |} in
  let world := {| startTime := 0; passes := [samplePass [sampleImage 1]; failing] |} in
  let r := imageURLGenerator sampleFormats world sampleCastData in
  outcome r = Threw (Error "Network Error")
  /\ yieldsOf (trace (final r)) = ["blob:file/1"].
Proof.
  intros failing world r.
  assert (Hmore : Forall (fun page => hasMore page = true)
                    [{| diff := [sampleImage 1]; hasMore := true |}])
    by (repeat constructor).
  pose proof (fetch_failure_escapes sampleFormats sampleCastData
                [{| diff := [sampleImage 1]; hasMore := true |}]
                (Error "Network Error") [] failing []
                (vend (sampleEnv 5000 12000) (initialState 0) "blob:file/1")
                Hmore eq_refl) as (_ & _ & Hrun).
  split; [|reflexivity].
  change (outcome r) with
    (outcome (outerLoop sampleFormats sampleCastData [failing]
                (vend (sampleEnv 5000 12000) (initialState 0) "blob:file/1"))).
  now rewrite Hrun.
Defined.

End Fetching.

(** ** More on the scheduler *)

Module Scheduling.

Import Scheduler.

Lemma yieldsOf_quiet between : Forall quiet between -> yieldsOf between = [].
Proof.
  intros Hq. induction Hq as [|ev between Hev _ IH]; [reflexivity|].
  destruct ev; try contradiction; exact IH.
Qed.

Lemma vend_yields env st url :
  yieldsOf (trace (vend env st url)) = yieldsOf (trace st) ++ [url].
Proof.
  destruct (vend_trace env st url) as (between & -> & _ & Hq).
  change (EvMaterialized url :: between ++ [EvYielded url])
    with ([EvMaterialized url] ++ between ++ [EvYielded url]).
  rewrite !yieldsOf_app. now rewrite (yieldsOf_quiet between Hq).
Qed.

(** *** The queue is the last two slides *)

Lemma lastTwo_now st :
  outstanding (trace st) (previousURLs st) ->
  (List.length (previousURLs st) <= 2)%nat ->
  List.length (previousURLs st) = Nat.min 2 (List.length (yieldsOf (trace st))) ->
  screenKept (trace st).
Proof.
  intros Hout Hle Hlen. exists (previousURLs st). split; [exact Hout|]. split; [exact Hle|].
  intros Hnil. rewrite Hnil in Hlen. simpl in Hlen.
  destruct (yieldsOf (trace st)) as [|url shown]; [reflexivity|].
  simpl in Hlen. destruct shown; discriminate.
Qed.

Lemma lastTwo_silent st st' ev :
  lastTwo st ->
  windowed st' ->
  previousURLs st' = previousURLs st ->
  trace st' = trace st ++ [ev] ->
  yieldsOf [ev] = [] -> revokesOf [ev] = [] ->
  lastTwo st'.
Proof.
  intros ((Hout & Hle & _) & Hlen & Hpre) Hw Hq Htr Hy Hr.
  split; [exact Hw|]. rewrite Hq, Htr. split.
  - rewrite yieldsOf_app, Hy. now rewrite app_nil_r.
  - apply every_prefix_app; [exact Hpre|].
    intros k. destruct (lastTwo_now st Hout Hle Hlen) as (live & Hlive & Hl2 & Hnil).
    exists live. unfold outstanding in *.
    destruct k as [|k]; simpl; rewrite ?firstn_nil, ?app_nil_r.
    + now split.
    + rewrite yieldsOf_app, revokesOf_app, Hy, Hr, !app_nil_r. now split.
Qed.

Lemma lastTwo_preserved st have st' have' :
  lastTwo st -> bodyCase (fun _ => True) st have (Next st' have') -> lastTwo st'.
Proof.
  intros Hl Hcase.
  pose proof (windowed_preserved st have st' have' (proj1 Hl) Hcase) as Hw'.
  inversion Hcase as [ | fileID | env url _ | | | e Hn3 Hauth ]; subst; clear Hcase.
  - now apply (lastTwo_silent st _ (EvSkipped fileID) Hl Hw').
  - destruct Hl as ((Hout & Hle & _) & Hlen & Hpre).
    split; [exact Hw'|]. split.
    + rewrite (vend_yields env st url).
      assert (Hq : List.length (previousURLs (vend env st url))
                   = Nat.min 2 (S (List.length (previousURLs st)))).
      { destruct (revokeOldest_cases (previousURLs st) Hle)
          as [(oldest & current & Hq & Hrev)|(Hshort & Hrev)];
          unfold vend; cbn [previousURLs]; rewrite Hrev; cbn [snd].
        - now rewrite Hq.
        - rewrite length_app. cbn [List.length]. lia. }
      rewrite Hq, length_app. cbn [List.length]. lia.
    + change (trace (vend env st url))
        with (trace st ++ [EvMaterialized url] ++ fst (revokeOldest (previousURLs st))
                ++ waitEvents (pacingWait (lastYieldTime st) (nowAfterMaterialize env))
                ++ [EvYielded url]).
      apply every_prefix_app; [exact Hpre|].
      intros k. unfold screenKept, outstanding in *.
      rewrite yieldsOf_app, revokesOf_app, Hout.
      destruct (lastTwo_now st Hout Hle Hlen) as (live & Hlive & _ & Hnil).
      unfold outstanding in Hlive. rewrite Hout in Hlive. apply app_inv_head in Hlive.
      subst live. rewrite Hout in Hnil.
      destruct (vend_prefix url _ (pacingWait (lastYieldTime st) (nowAfterMaterialize env))
                  k (revokeOldest_shape (previousURLs st)))
        as [[-> ->]|[[-> ->]|[-> ->]]].
      * exists (previousURLs st). rewrite !app_nil_r. now split.
      * destruct (revokeOldest_cases (previousURLs st) Hle)
          as [(oldest & current & Hq & Hrev)|(Hshort & Hrev)]; rewrite Hrev; simpl.
        -- exists [current]. rewrite Hq, app_nil_r, <- app_assoc.
           split; [reflexivity|]. split; [simpl; lia | discriminate].
        -- exists (previousURLs st). rewrite !app_nil_r. now split.
      * destruct (revokeOldest_cases (previousURLs st) Hle)
          as [(oldest & current & Hq & Hrev)|(Hshort & Hrev)]; rewrite Hrev; simpl.
        -- exists [current; url]. rewrite Hq, <- !app_assoc.
           split; [reflexivity|]. split; [simpl; lia | discriminate].
        -- exists (previousURLs st ++ [url]).
           rewrite app_nil_r, <- app_assoc, length_app.
           split; [reflexivity|]. split; [simpl; lia|].
           intros Hnone. apply app_eq_nil in Hnone as [_ Hnone]. discriminate.
  - now apply (lastTwo_silent st _ (EvFailed e) Hl Hw').
Qed.

Lemma lastTwo_escape st have e st' :
  lastTwo st -> bodyCase (fun _ => True) st have (Raise e st') -> lastTwo st'.
Proof.
  intros Hl Hcase.
  pose proof (windowed_escape st have e st' (proj1 Hl) Hcase) as Hw'.
  inversion Hcase; subst; clear Hcase;
    [exact Hl | now apply (lastTwo_silent st _ (EvFailed e) Hl Hw')
              | now apply (lastTwo_silent st _ (EvFailed e) Hl Hw')].
Qed.

Lemma initialState_lastTwo now : lastTwo (initialState now).
Proof.
  split; [apply initialState_windowed|]. split; [reflexivity|].
  intros n. exists []. rewrite firstn_nil.
  split; [reflexivity|]. split; [simpl; lia | reflexivity].
Qed.

(** What [screenKept] says of the numbers revoked and yielded. *)
Lemma screenKept_count tr :
  screenKept tr ->
  revokesOf tr = firstn (List.length (revokesOf tr)) (yieldsOf tr)
  /\ (List.length (yieldsOf tr) - 2 <= List.length (revokesOf tr))%nat
  /\ (List.length (revokesOf tr) <= List.length (yieldsOf tr) - 1)%nat.
Proof.
  intros (live & Hout & Hle & Hnil). unfold outstanding in Hout.
  assert (Hn : List.length (yieldsOf tr)
               = (List.length (revokesOf tr) + List.length live)%nat)
    by (rewrite Hout at 1; apply length_app).
  split; [|split].
  - rewrite Hout. rewrite firstn_app, firstn_all, Nat.sub_diag. simpl.
    now rewrite app_nil_r.
  - lia.
  - destruct live as [|url live]; [|simpl in Hn; lia].
    rewrite (Hnil eq_refl) in Hout. symmetry in Hout.
    apply app_eq_nil in Hout as [-> _]. simpl. lia.
Qed.

(** X10. An iteration that materializes a URL puts it at the end of the queue and
    yields it; when the queue held two URLs before, the older one is revoked
    and leaves the queue, and this happens before the wait and the yield.
    So in every run, after every event: the URLs revoked are the first
    that were yielded, in that order; the URL yielded last, which is the
    one on screen, has not been revoked; and every URL yielded before the
    last two has been. The URL of the slide before the one on screen is
    revoked as soon as the next URL is materialized, while the slide on
    screen stays. Between two iterations and at the end of the run the queue
    holds the last two URLs that were yielded (all of them while fewer than
    two were) and the URLs revoked are all the earlier ones. *)
Theorem window_is_last_two F world castData :
  let st := final (imageURLGenerator F world castData) in
  let shown := yieldsOf (trace st) in
  (forall env st0 have encryptedFile url,
      attempt F castData env encryptedFile = Materialized url ->
      (List.length (previousURLs st0) <= 2)%nat ->
      let queue := previousURLs st0 ++ [url] in
      exists st' wait,
        loopBody F castData env st0 have encryptedFile = Next st' true
        /\ previousURLs st' = skipn (List.length queue - 2) queue
        /\ trace st'
           = trace st0 ++ [EvMaterialized url]
               ++ map EvRevoked (firstn (List.length queue - 2) queue)
               ++ waitEvents wait ++ [EvYielded url])
  /\ (forall n,
        let revoked := revokesOf (firstn n (trace st)) in
        let yielded := yieldsOf (firstn n (trace st)) in
        revoked = firstn (List.length revoked) yielded
        /\ (List.length yielded - 2 <= List.length revoked)%nat
        /\ (List.length revoked <= List.length yielded - 1)%nat)
  /\ previousURLs st = skipn (List.length shown - 2) shown
  /\ revokesOf (trace st) = firstn (List.length shown - 2) shown
  /\ List.length (previousURLs st) = Nat.min 2 (List.length shown).
Proof.
  intros st shown.
  pose proof (outerLoop_invariant (fun _ => True) lastTwo (fun _ => lastTwo)
                lastTwo_preserved lastTwo_escape F castData
                (passes world) (every_env_ok _) (initialState (startTime world))) as Hend.
  fold (imageURLGenerator F world castData) in Hend.
  assert (Hl : lastTwo st).
  { unfold holdsAtEnd in Hend. subst st.
    destruct (outcome (imageURLGenerator F world castData));
      exact (Hend (initialState_lastTwo _)). }
  destruct Hl as ((Hout & _ & _) & Hlen & Hpre). unfold outstanding in Hout.
  fold shown in Hout, Hlen.
  assert (Hrev : List.length (revokesOf (trace st)) = (List.length shown - 2)%nat).
  { assert (H : List.length shown
                = (List.length (revokesOf (trace st)) + List.length (previousURLs st))%nat)
      by (rewrite Hout at 1; apply length_app).
    lia. }
  split; [|split; [intros n; exact (screenKept_count _ (Hpre n))|]].
  - intros env st0 have encryptedFile url Hok Hle queue.
    exists (vend env st0 url),
      (pacingWait (lastYieldTime st0) (nowAfterMaterialize env)).
    unfold loopBody. rewrite Hok. split; [reflexivity|].
    subst queue. unfold vend; cbn [previousURLs trace].
    destruct (previousURLs st0) as [|a [|b [|c q]]]; simpl in Hle; [| | |lia];
      split; reflexivity.
  - rewrite <- Hrev. split; [|split; [|exact Hlen]].
    + rewrite Hout, skipn_app, skipn_all, Nat.sub_diag. reflexivity.
    + rewrite Hout, firstn_app, firstn_all, Nat.sub_diag. simpl. now rewrite app_nil_r.
Qed.

(** While the third slide is being prepared: after the first eight events of
    a run of four slides, two URLs have been yielded and the older one has
    been revoked, the later one being on screen, and the generator waits;
    when the third has been yielded, the queue holds the second and the
    third. *)
Example window_while_waiting :
  let world := {| startTime := 0;
                  passes := [samplePass [sampleImage 1; sampleImage 2;
                                         sampleImage 3; sampleImage 4]] |} in
  let tr := trace (final (imageURLGenerator sampleFormats world sampleCastData)) in
  firstn 8 tr = [EvMaterialized "blob:file/1"; EvYielded "blob:file/1";
                 EvMaterialized "blob:file/2"; EvWaited 7000; EvYielded "blob:file/2";
                 EvMaterialized "blob:file/3"; EvRevoked "blob:file/1"; EvWaited 7000]
  /\ yieldsOf (firstn 8 tr) = ["blob:file/1"; "blob:file/2"]
  /\ revokesOf (firstn 8 tr) = ["blob:file/1"]
  /\ nth_error tr 8 = Some (EvYielded "blob:file/3").
Proof. repeat split. Qed.

(** *** The range of the failure counter *)

(** X12. In every run the failure counter stays between 0 and 3, and it reads 3
    only when the generator has ended by throwing. *)
Theorem counter_range F world castData :
  let r := imageURLGenerator F world castData in
  0 <= consecutiveFailures (final r) <= 3
  /\ (consecutiveFailures (final r) = 3 -> exists e, outcome r = Threw e).
Proof.
  intros r.
  pose proof (outerLoop_invariant (fun _ => True) runningStrikes escapedStrikes
                runningStrikes_preserved runningStrikes_escape F castData
                (passes world) (every_env_ok _) (initialState (startTime world))
                (initialState_runningStrikes _)) as Hend.
  fold (imageURLGenerator F world castData) in Hend. fold r in Hend.
  unfold holdsAtEnd in Hend.
  assert (Hrun : runningStrikes (final r) -> 0 <= consecutiveFailures (final r) <= 2).
  { intros [Hc Hu]. unfold counted in Hc.
    pose proof (underThree_bound 0 (trace (final r)) Hu). unfold strikes in Hc. lia. }
  destruct (outcome r) as [|e|].
  - specialize (Hrun Hend). split; [lia|]. intros H3; lia.
  - split; [|intros _; now exists e].
    destruct Hend as [Hc [Hu|(tr & Htr & Hu)]].
    + specialize (Hrun (conj Hc Hu)). lia.
    + unfold counted, strikes in Hc. rewrite Htr, strikesFrom_failed in Hc.
      pose proof (underThree_bound 0 tr Hu). lia.
  - specialize (Hrun Hend). split; [lia|]. intros H3; lia.
Qed.

(** *** The slides of a pass *)

Lemma urlsOf_cons a attempts :
  urlsOf (a :: attempts)
  = match a with Materialized url => [url] | _ => [] end ++ urlsOf attempts.
Proof. reflexivity. Qed.

Lemma forLoop_yields F castData envs encryptedFiles :
  forall i st have,
    match forLoop F castData envs i st have encryptedFiles with
    | Next st' _ =>
        exists evs, trace st' = trace st ++ evs
                    /\ yieldsOf evs = urlsOf (attemptsOf F castData envs i encryptedFiles)
    | Raise _ st' =>
        exists evs later,
          trace st' = trace st ++ evs
          /\ urlsOf (attemptsOf F castData envs i encryptedFiles) = yieldsOf evs ++ later
    end.
Proof.
  induction encryptedFiles as [|encryptedFile others IH]; intros i st have.
  - simpl. exists []. now rewrite app_nil_r.
  - cbn [forLoop attemptsOf]. rewrite urlsOf_cons. unfold loopBody.
    destruct (attempt F castData (envs i) encryptedFile) as [e|fileID|url|e].
    + exists [], (urlsOf (attemptsOf F castData envs (S i) others)).
      now rewrite app_nil_r.
    + specialize (IH (S i) (skipped st fileID) have).
      destruct (forLoop F castData envs (S i) (skipped st fileID) have others)
        as [st' have'|e st'].
      * destruct IH as (evs & Htr & Hy). exists (EvSkipped fileID :: evs).
        split; [rewrite Htr; simpl; now rewrite <- app_assoc | exact Hy].
      * destruct IH as (evs & later & Htr & Hy). exists (EvSkipped fileID :: evs), later.
        split; [rewrite Htr; simpl; now rewrite <- app_assoc | exact Hy].
    + specialize (IH (S i) (vend (envs i) st url) true).
      destruct (vend_trace (envs i) st url) as (between & Hv & _ & Hq).
      assert (Hone : yieldsOf (EvMaterialized url :: between ++ [EvYielded url]) = [url]).
      { change (EvMaterialized url :: between ++ [EvYielded url])
          with ([EvMaterialized url] ++ between ++ [EvYielded url]).
        now rewrite !yieldsOf_app, (yieldsOf_quiet between Hq). }
      destruct (forLoop F castData envs (S i) (vend (envs i) st url) true others)
        as [st' have'|e st'].
      * destruct IH as (evs & Htr & Hy).
        exists ((EvMaterialized url :: between ++ [EvYielded url]) ++ evs).
        split; [rewrite Htr, Hv; now rewrite <- app_assoc|].
        now rewrite yieldsOf_app, Hone, Hy.
      * destruct IH as (evs & later & Htr & Hy).
        exists ((EvMaterialized url :: between ++ [EvYielded url]) ++ evs), later.
        split; [rewrite Htr, Hv; now rewrite <- app_assoc|].
        now rewrite yieldsOf_app, Hone, Hy, <- app_assoc.
    + cbv zeta. simpl app.
      destruct (consecutiveFailures (caught st e) =? 3);
        [|destruct (isUnauthorized e)];
        try (exists [EvFailed e], (urlsOf (attemptsOf F castData envs (S i) others));
             split; reflexivity).
      specialize (IH (S i) (caught st e) have).
      destruct (forLoop F castData envs (S i) (caught st e) have others)
        as [st' have'|e' st'].
      * destruct IH as (evs & Htr & Hy). exists (EvFailed e :: evs).
        split; [rewrite Htr; simpl; now rewrite <- app_assoc | exact Hy].
      * destruct IH as (evs & later & Htr & Hy). exists (EvFailed e :: evs), later.
        split; [rewrite Htr; simpl; now rewrite <- app_assoc | exact Hy].
Qed.

(** X13. The slides of a pass come in the order of the iteration: a pass that
    runs to its end has yielded exactly the URLs of the files whose
    materialization succeeded, one each and in that order; a pass that an
    error cuts short has yielded a first part of them. *)
Theorem pass_yields_in_order F castData envs i st have encryptedFiles :
  let due := urlsOf (attemptsOf F castData envs i encryptedFiles) in
  match forLoop F castData envs i st have encryptedFiles with
  | Next st' _ => yieldedBetween st st' = due
  | Raise _ st' => exists later, due = yieldedBetween st st' ++ later
  end.
Proof.
  intros due. subst due.
  pose proof (forLoop_yields F castData envs encryptedFiles i st have) as H.
  destruct (forLoop F castData envs i st have encryptedFiles) as [st' have'|e st'].
  - destruct H as (evs & Htr & Hy). now rewrite (yieldedBetween_grown st st' evs Htr).
  - destruct H as (evs & later & Htr & Hy). exists later.
    now rewrite (yieldedBetween_grown st st' evs Htr).
Qed.

(** *** A pass without a slide *)

(** X14. A pass in which no file materializes, every file being either not
    eligible or failing with an error that is not an authorization failure,
    and with the failures not reaching a third in a row, ends the slideshow:
    the generator returns without fetching again, also when the collection
    does hold eligible files. It has yielded nothing in that pass, the
    failures stay counted, and the queue is left as it was. *)
Theorem fruitless_pass_ends_the_run F castData p later st files :
  let attempts := attemptsOf F castData (envOf p) 0 (shuffled p files) in
  completion (getEncryptedCollectionFiles (responses p) (castToken castData))
    = Some (Returned files) ->
  Forall fruitless attempts ->
  consecutiveFailures st + Z.of_nat (failuresOf attempts) < 3 ->
  let r := outerLoop F castData (p :: later) st in
  outcome r = Done
  /\ passLog r = [{| yielded := []; passEnd := Completed |}]
  /\ consecutiveFailures (final r)
     = consecutiveFailures st + Z.of_nat (failuresOf attempts)
  /\ previousURLs (final r) = previousURLs st
  /\ yieldsOf (trace (final r)) = yieldsOf (trace st).
Proof.
  intros attempts Hfetch Hall Hfew r.
  destruct (forLoop_fruitless F castData (envOf p) (shuffled p files) 0%nat st false
              Hall Hfew) as (st' & Hrun & Hq & _ & Hc & evs & Htr & Hy).
  unfold r. simpl. rewrite Hfetch, Hrun. simpl.
  rewrite (yieldedBetween_grown st st' evs Htr), Hy.
  repeat split; try assumption.
  rewrite Htr, yieldsOf_app, Hy. now rewrite app_nil_r.
Qed.

(** A collection of a video and two images that cannot be downloaded for
    now: the generator returns after the first pass, with two failures
    counted. *)
Lemma fruitless_pass_ends_the_run_witness :
  let records := [sampleRecord 5 "clip.mp4" "video" 900 5 false None;
                  sampleImage (-1); sampleImage (-2)] in
  let world := {| startTime := 0; passes := [samplePass records; samplePass records] |} in
  let r := imageURLGenerator sampleFormats world sampleCastData in
  outcome r = Done /\ consecutiveFailures (final r) = 2.
Proof.
  intros records world r.
  assert (Hall : Forall fruitless
                   (attemptsOf sampleFormats sampleCastData (envOf (samplePass records)) 0
                      (shuffled (samplePass records) records)))
    by (repeat constructor).
  destruct (fruitless_pass_ends_the_run sampleFormats sampleCastData (samplePass records)
              [samplePass records] (initialState 0) records eq_refl Hall)
    as (Hdone & _ & Hc & _).
  { vm_compute. reflexivity. }
  split; [exact Hdone | exact Hc].
Defined.

End Scheduling.

(** ** The HEIC worker *)

Module HeicWorker.

Lemma heicToJPEGEach_cached {W : Type} (create : nat -> W) remote m worker heicBlobs :
  heicWorker m = Some worker ->
  heicToJPEGEach create remote m heicBlobs = (m, map (remote worker) heicBlobs).
Proof.
  intros Hw. induction heicBlobs as [|heicBlob others IH]; simpl; [reflexivity|].
  unfold heicToJPEGCached. rewrite Hw, IH. reflexivity.
Qed.

(** X15. However many conversions are asked for, and whether they succeed or
    fail, at most one HEIC worker is ever created: the first call creates
    it, and every call, the first included, is answered by that worker. *)
Theorem heic_worker_created_once {W : Type} (create : nat -> W) remote heicBlobs :
  let start := {| heicWorker := None; workersCreated := 0 |} in
  let run := heicToJPEGEach create remote start heicBlobs in
  snd run = map (remote (create 0%nat)) heicBlobs
  /\ workersCreated (fst run) = Nat.min 1 (List.length heicBlobs)
  /\ (heicBlobs <> [] -> heicWorker (fst run) = Some (create 0%nat))
  /\ forall later,
       (workersCreated (fst (heicToJPEGEach create remote (fst run) later)) <= 1)%nat.
Proof.
  intros start run. subst run start.
  pose (m1 := {| heicWorker := Some (create 0%nat); workersCreated := 1 |}).
  assert (Hm1 : forall blobs,
             heicToJPEGEach create remote m1 blobs = (m1, map (remote (create 0%nat)) blobs))
    by (intros blobs; now apply heicToJPEGEach_cached).
  assert (Hfirst : forall b blobs,
             heicToJPEGEach create remote {| heicWorker := None; workersCreated := 0 |}
               (b :: blobs)
             = (m1, map (remote (create 0%nat)) (b :: blobs))).
  { intros b blobs. cbn [heicToJPEGEach]. unfold heicToJPEGCached.
    cbn [heicWorker workersCreated]. fold m1. now rewrite Hm1. }
  destruct heicBlobs as [|heicBlob others].
  - simpl. repeat split; [congruence|].
    intros [|b later]; [simpl; lia|]. rewrite Hfirst. simpl. lia.
  - rewrite Hfirst. simpl. repeat split.
    intros later. fold m1. rewrite Hm1. simpl. lia.
Qed.

End HeicWorker.

(** ** The disk cache *)

Module DiskCache.

Lemma existsSync_file fs path data : fileAt fs path = Some data -> existsSync fs path = true.
Proof. unfold existsSync. now intros ->. Qed.




(** X17. Putting a response under one key leaves what [match] returns for every
    key of a different path as it was. *)
Theorem cache_put_leaves_others P cacheBucketDir fs cacheKey response fs' otherKey :
  put P cacheBucketDir fs cacheKey response = Returned fs' ->
  join P cacheBucketDir otherKey <> join P cacheBucketDir cacheKey ->
  cacheMatch P cacheBucketDir fs' otherKey = cacheMatch P cacheBucketDir fs otherKey.
Proof.
  unfold put, writeFile. intros Hput Hother.
  destruct (isDirectory fs (join P cacheBucketDir cacheKey)); [discriminate|].
  destruct (negb (isDirectory fs (dirname P (join P cacheBucketDir cacheKey))));
    [discriminate|].
  injection Hput as <-.
  unfold cacheMatch, existsSync, readFile. simpl.
  apply String.eqb_neq in Hother. now rewrite Hother.
Qed.

Lemma cache_put_leaves_others_witness :
  let P := {| join := fun d name => (d ++ "/" ++ name)%string;
              dirname := fun _ => "/cache/ente/thumbs" |} in
  let fs := {| fileAt := fun p => if (p =? "/cache/ente/thumbs/7")%string
                                  then Some [Byte.x07] else None;
               isDirectory := fun p => (p =? "/cache/ente/thumbs")%string |} in
  exists fs',
    put P "/cache/ente/thumbs" fs "42" [Byte.x01] = Returned fs'
    /\ cacheMatch P "/cache/ente/thumbs" fs' "7" = Returned (Some [Byte.x07]).
Proof.
  intros P fs. eexists. split; [reflexivity|].
  rewrite (cache_put_leaves_others P "/cache/ente/thumbs" fs "42" [Byte.x01] _ "7" eq_refl).
  - reflexivity.
  - discriminate.
Defined.








End DiskCache.

(** ** The FAQ items *)

Module Faq.

Lemma optionStringEqb_eq s t : optionStringEqb s t = true <-> s = t.
Proof.
  destruct s as [s|], t as [t|]; simpl; split; intros H; try discriminate; auto.
  - apply String.eqb_eq in H. now subst.
  - injection H as ->. apply String.eqb_refl.
Qed.

(** X19. An item that is written to a map and read back is the same item, with
    its null fields; [fromMap] gives null for null, reads nothing but the
    keys [q] and [a], takes a missing key for null, and fails on a value
    that is not a string. *)
Theorem fromMap_toMap (item : FaqItem) :
  fromMap (Some (toMap item)) = Returned (Some item)
  /\ fromMap None = Returned None
  /\ (forall map key value,
        key <> "q" -> key <> "a" ->
        fromMap (Some ((key, value) :: map)) = fromMap (Some map))
  /\ fromMap (Some []) = Returned (Some {| faq_q := None; faq_a := None |})
  /\ (forall map key,
        key = "q" \/ key = "a" ->
        mapGet map key <> DNull -> (forall s, mapGet map key <> DString s) ->
        exists e, fromMap (Some map) = Thrown e).
Proof.
  split; [|split; [|split; [|split]]].
  - destruct item as [[q|] [a|]]; reflexivity.
  - reflexivity.
  - intros map key value Hq Ha. unfold fromMap. simpl.
    apply String.eqb_neq in Hq, Ha. now rewrite Hq, Ha.
  - reflexivity.
  - intros map key Hkey Hnull Hstr. unfold fromMap.
    destruct Hkey as [-> | ->].
    + destruct (mapGet map "q") as [|s|n|b]; simpl; eauto; [congruence | now destruct (Hstr s)].
    + destruct (mapGet map "q") as [|s|n|b]; simpl; eauto;
        destruct (mapGet map "a") as [|s'|n'|b']; simpl; eauto;
        try congruence; now destruct (Hstr s').
Qed.

(** X20. [copyWith] replaces the fields it is given and keeps the others; it
    cannot clear a field: a field of the copy is null only when no value was
    given for it and the field was null before. Without arguments the copy
    is the item itself. *)
Theorem copyWith_fields (item : FaqItem) (q a : option string) :
  copyWith item None None = item
  /\ (forall s, q = Some s -> faq_q (copyWith item q a) = Some s)
  /\ (forall s, a = Some s -> faq_a (copyWith item q a) = Some s)
  /\ (q = None -> faq_q (copyWith item q a) = faq_q item)
  /\ (a = None -> faq_a (copyWith item q a) = faq_a item)
  /\ (faq_q (copyWith item q a) = None <-> q = None /\ faq_q item = None)
  /\ (faq_a (copyWith item q a) = None <-> a = None /\ faq_a item = None)
  /\ copyWith (copyWith item q a) q a = copyWith item q a.
Proof.
  destruct item as [q0 a0]. unfold copyWith. simpl.
  split; [reflexivity|].
  split; [now intros s ->|]. split; [now intros s ->|].
  split; [now intros ->|]. split; [now intros ->|].
  split; [|split].
  - destruct q; simpl; split; [discriminate | intros [H _]; discriminate | auto | now intros [_ H]].
  - destruct a; simpl; split; [discriminate | intros [H _]; discriminate | auto | now intros [_ H]].
  - now destruct q, a.
Qed.

(** X21. Two items are [==] exactly when their questions and their answers are
    the same, and equal items have the same hash code. The hash code does
    not tell the question from the answer: swapping them leaves it as it
    is, and an item whose question is its answer has hash code 0. *)
Theorem faqEquals_hashCode (stringHashCode : option string -> Z) (x y : FaqItem) :
  (faqEquals x y = true <-> x = y)
  /\ (faqEquals x y = true -> faqHashCode stringHashCode x = faqHashCode stringHashCode y)
  /\ faqHashCode stringHashCode {| faq_q := faq_a x; faq_a := faq_q x |}
     = faqHashCode stringHashCode x
  /\ (faq_q x = faq_a x -> faqHashCode stringHashCode x = 0).
Proof.
  assert (Heq : faqEquals x y = true <-> x = y).
  { unfold faqEquals. rewrite andb_true_iff, !optionStringEqb_eq.
    destruct x as [qx ax], y as [qy ay]; simpl. split.
    - now intros [-> ->].
    - intros H. injection H as -> ->. now split. }
  split; [exact Heq|]. split; [|split].
  - intros H. apply Heq in H. now subst.
  - unfold faqHashCode. simpl. apply Z.lxor_comm.
  - intros H. unfold faqHashCode. rewrite H. apply Z.lxor_nilpotent.
Qed.

End Faq.
